(** * Job-shop scheduler: model encoder, solution interpreter, utilization

    A shallow embedding of [scheduler/scheduler.py] (class
    [JobShopScheduler]) and the properties of its constraint model.

    - A pandas DataFrame is a list of rows in file order; identifiers,
      durations and deadlines are integers ([Z]).
    - A Python [dict] is a [gmap]. [d[k]] is written [d !!! k] where the
      key is always bound ([all_tasks_lookup], [machine_to_intervals_lookup]);
      [.iloc[0]] returns an [option] and its failure is an [IndexError].
    - A record of the returned schedule has the columns of the source with
      the prefix [s_].
    - The CP-SAT model is kept as data (variables with their domains,
      constraints, objective); what a constraint means is a boolean
      function of a valuation of the variables.
    - The search engine is outside the program: [Solve] is a parameter
      of [solve].
    - Methods thread the scheduler object explicitly and return a
      [result]: a value or the exception raised.
    - Utilization ratios are exact rationals ([Q]). *)

From Stdlib Require Import ZArith QArith List Lia.
From stdpp Require Import base option list sorting gmap strings pretty.

Local Open Scope Z_scope.

(** ** Tabular data *)

(** One row of the job table. [D] is the type of the [Deadline] cell:
    [option Z] as read from the file ([None] is NaN, an absent cell or an
    absent column), [Z] once [load_data] has filled the column. *)
Record Row (D : Type) : Type := mkRow {
  JobID : Z;
  TaskID : Z;
  MachineID : Z;
  Duration : Z;
  Deadline : D
}.
Arguments mkRow {D} _ _ _ _ _.
Arguments JobID {D} _.
Arguments TaskID {D} _.
Arguments MachineID {D} _.
Arguments Duration {D} _.
Arguments Deadline {D} _.

Abbreviation DataFrame D := (list (Row D)) (only parsing).

(** [Series.sum()] *)
Definition sum (l : list Z) : Z := foldr Z.add 0 l.

(** [sorted(series.unique())] *)
Definition sorted_unique (l : list Z) : list Z :=
  merge_sort Z.le (remove_dups l).

(** [df[df['JobID'] == job]] *)
Definition rows_of_job {D} (df : DataFrame D) (job : Z) : DataFrame D :=
  filter (λ r, JobID r = job) df.

(** [series.fillna(value)] on one cell *)
Definition fillna (value : Z) (cell : option Z) : Z :=
  match cell with
  | Some d => d
  | None => value
  end.

(** ** Exceptions and results *)

Inductive exn : Type :=
| ValueError (msg : string)
| TypeError (msg : string)
| AttributeError (msg : string)
| KeyError (msg : string)
| IndexError (msg : string)
| RuntimeError (msg : string)
| Exception (msg : string).

Inductive result (A : Type) : Type :=
| Ok (a : A)
| Raise (e : exn).
Arguments Ok {A} _.
Arguments Raise {A} _.

(** ** The constraint model *)

(** Integer variables of the model. Each [NewIntVar] call creates a fresh
    variable; a variable is identified here by the call that created it:
    the row index for [start]/[end], the job for the per-job variables. *)
Inductive IntVar : Type :=
| start_var (row : nat)        (* f'start_{job}_{task}' *)
| end_var (row : nat)          (* f'end_{job}_{task}' *)
| makespan_var                 (* 'makespan' *)
| job_end_var (job : Z)        (* f'job_{job}_end' *)
| tardiness_var (job : Z).     (* f'job_{job}_tardiness' *)

#[global] Instance IntVar_eq_dec : EqDecision IntVar.
Proof. solve_decision. Defined.

Record IntervalVar : Type := mkInterval {
  iv_start : IntVar;
  iv_size : Z;
  iv_end : IntVar
}.

Inductive LinearExpr : Type :=
| EVar (v : IntVar)
| EConst (c : Z)
| EAdd (a b : LinearExpr)
| ESub (a b : LinearExpr).

Inductive Constraint : Type :=
| Interval (iv : IntervalVar)
| NoOverlap (ivs : list IntervalVar)
| LessOrEqual (a b : LinearExpr)
| MaxEquality (target : LinearExpr) (exprs : list LinearExpr).

Record CpModel : Type := mkModel {
  variables : list (IntVar * (Z * Z));
  constraints : list Constraint;
  objective : option LinearExpr
}.

Definition empty_model : CpModel := mkModel [] [] None.

Definition NewIntVar (lb ub : Z) (v : IntVar) (m : CpModel) : CpModel :=
  mkModel (variables m ++ [(v, (lb, ub))]) (constraints m) (objective m).

Definition Add (c : Constraint) (m : CpModel) : CpModel :=
  mkModel (variables m) (constraints m ++ [c]) (objective m).

Definition Minimize (e : LinearExpr) (m : CpModel) : CpModel :=
  mkModel (variables m) (constraints m) (Some e).

(** Python's [sum(terms)]: [0 + t1 + t2 + ...] *)
Definition sum_expr (terms : list LinearExpr) : LinearExpr :=
  foldl EAdd (EConst 0) terms.

(** *** Meaning of a model under a valuation *)

Definition valuation : Type := IntVar → Z.

Fixpoint eval (val : valuation) (e : LinearExpr) : Z :=
  match e with
  | EVar v => val v
  | EConst c => c
  | EAdd a b => eval val a + eval val b
  | ESub a b => eval val a - eval val b
  end.

(** [AddNoOverlap]: the intervals are pairwise disjoint, two intervals being
    disjoint when one ends no later than the other starts (an interval of
    size zero counts like any other). *)
Definition disjoint (val : valuation) (a b : IntervalVar) : bool :=
  bool_decide (val (iv_end a) ≤ val (iv_start b)) ||
  bool_decide (val (iv_end b) ≤ val (iv_start a)).

Fixpoint no_overlap (val : valuation) (ivs : list IntervalVar) : bool :=
  match ivs with
  | [] => true
  | a :: rest => forallb (disjoint val a) rest && no_overlap val rest
  end.

(** [target = max(exprs)]; no value is the maximum of an empty list. *)
Definition max_equality (val : valuation) (target : LinearExpr)
    (exprs : list LinearExpr) : bool :=
  existsb (λ e, bool_decide (eval val target = eval val e)) exprs &&
  forallb (λ e, bool_decide (eval val e ≤ eval val target)) exprs.

(** [Interval]: [NewIntervalVar(start, size, end)] enforces
    [start + size == end] and [size >= 0]. *)
Definition holds (val : valuation) (c : Constraint) : bool :=
  match c with
  | Interval iv =>
      bool_decide (val (iv_start iv) + iv_size iv = val (iv_end iv)) &&
      bool_decide (0 ≤ iv_size iv)
  | NoOverlap ivs => no_overlap val ivs
  | LessOrEqual a b => bool_decide (eval val a ≤ eval val b)
  | MaxEquality target exprs => max_equality val target exprs
  end.

Definition in_domain (val : valuation) (d : IntVar * (Z * Z)) : bool :=
  bool_decide (d.2.1 ≤ val d.1) && bool_decide (val d.1 ≤ d.2.2).

(** [val] is a feasible assignment of [m]. *)
Definition satisfies (val : valuation) (m : CpModel) : bool :=
  forallb (in_domain val) (variables m) && forallb (holds val) (constraints m).

Definition objective_value (val : valuation) (m : CpModel) : Z :=
  match objective m with
  | Some e => eval val e
  | None => 0
  end.

(** ** The scheduler object *)

(** The value stored in [all_tasks[job_id, task_id]]. *)
Record TaskVars : Type := mkTaskVars {
  t_start : IntVar;
  t_end : IntVar;
  t_interval : IntervalVar;
  t_machine : Z
}.

#[global] Instance TaskVars_inhabited : Inhabited TaskVars :=
  populate (mkTaskVars makespan_var makespan_var
              (mkInterval makespan_var 0 makespan_var) 0).

Inductive Status : Type :=
| UNKNOWN
| MODEL_INVALID
| FEASIBLE
| INFEASIBLE
| OPTIMAL.

#[global] Instance Status_eq_dec : EqDecision Status.
Proof. solve_decision. Defined.

(** What the search engine reports for one [Solve] call. *)
Record Response : Type := mkResponse {
  status : Status;
  Value : valuation;
  ObjectiveValue : Z
}.

(** A [CpSolver] holds the response of its last [Solve] call, if any. *)
Record CpSolver : Type := mkSolver {
  response : option Response
}.

Record JobShopScheduler : Type := mkScheduler {
  model : option CpModel;
  solver : option CpSolver;
  jobs_data : option (DataFrame Z);
  machines : option (list Z);
  jobs : option (list Z);
  horizon : option Z;
  all_tasks : option (gmap (Z * Z) TaskVars)
}.

(** [__init__] *)
Definition init : JobShopScheduler :=
  mkScheduler None None None None None None None.

(** A method: takes the object, returns a result and the object after. *)
Definition method (A : Type) : Type :=
  JobShopScheduler → result A * JobShopScheduler.

(** ** load_data *)

(** [csv] is the frame [pd.read_csv] produced. *)
Definition load_data (csv : DataFrame (option Z)) : method unit := λ self,
  let machines' := sorted_unique (MachineID <$> csv) in
  let jobs' := sorted_unique (JobID <$> csv) in
  let horizon' := sum (Duration <$> csv) in
  let jobs_data' :=
    (λ r, mkRow (JobID r) (TaskID r) (MachineID r) (Duration r)
            (fillna horizon' (Deadline r))) <$> csv in
  (Ok (),
   mkScheduler (model self) (solver self) (Some jobs_data') (Some machines')
     (Some jobs') (Some horizon') (all_tasks self)).

(** ** create_model *)

(** [df.iterrows()] *)
Definition iterrows {D} (df : DataFrame D) : list (nat * Row D) :=
  imap pair df.

(** State of the first loop: the model and the two dictionaries. *)
Definition task_loop_state : Type :=
  CpModel * gmap (Z * Z) TaskVars * gmap Z (list IntervalVar).

Definition add_task (horizon : Z) (st : task_loop_state)
    (it : nat * Row Z) : task_loop_state :=
  let '(m, all_tasks, machine_to_intervals) := st in
  let '(i, task) := it in
  let job_id := JobID task in
  let task_id := TaskID task in
  let machine_id := MachineID task in
  let duration := Duration task in
  let m := NewIntVar 0 horizon (start_var i) m in
  let m := NewIntVar 0 horizon (end_var i) m in
  let interval_var := mkInterval (start_var i) duration (end_var i) in
  let m := Add (Interval interval_var) m in
  (m,
   <[(job_id, task_id) := mkTaskVars (start_var i) (end_var i) interval_var machine_id]>
     all_tasks,
   alter (λ l, l ++ [interval_var]) machine_id machine_to_intervals).

(** [job_tasks.sort_values('TaskID')], read through its [TaskID] column. *)
Definition sorted_task_ids (df : DataFrame Z) (job : Z) : list Z :=
  merge_sort Z.le (TaskID <$> rows_of_job df job).

(** The precedence loop of one job. *)
Definition add_precedences (all_tasks : gmap (Z * Z) TaskVars)
    (df : DataFrame Z) (m : CpModel) (job : Z) : CpModel :=
  let job_tasks := sorted_task_ids df job in
  foldl (λ m i,
           let current_task := (job, job_tasks !!! i) in
           let next_task := (job, job_tasks !!! S i) in
           Add (LessOrEqual (EVar (t_end (all_tasks !!! current_task)))
                            (EVar (t_start (all_tasks !!! next_task)))) m)
        m (seq 0 (length job_tasks - 1)).

(** End variables of the tasks of one job, in row order. *)
Definition job_ends (all_tasks : gmap (Z * Z) TaskVars)
    (df : DataFrame Z) (job : Z) : list LinearExpr :=
  (λ task, EVar (t_end (all_tasks !!! (job, task)))) <$>
    (TaskID <$> rows_of_job df job).

(** [series.iloc[0]] *)
Definition iloc0 {A} (l : list A) : option A := head l.

(** State of the tardiness loop: the model and [objective_terms]. *)
Definition add_tardiness (all_tasks : gmap (Z * Z) TaskVars)
    (df : DataFrame Z) (horizon : Z)
    (st : result (CpModel * list LinearExpr)) (job_id : Z)
    : result (CpModel * list LinearExpr) :=
  match st with
  | Raise e => Raise e
  | Ok (m, objective_terms) =>
      let job_tasks := rows_of_job df job_id in
      match iloc0 (Deadline <$> job_tasks) with
      | None => Raise (IndexError "single positional indexer is out-of-bounds")
      | Some job_deadline =>
          let last_task_end := job_end_var job_id in
          let m := NewIntVar 0 horizon last_task_end m in
          let m := Add (MaxEquality (EVar last_task_end)
                          (job_ends all_tasks df job_id)) m in
          let tardiness := tardiness_var job_id in
          let m := NewIntVar 0 horizon tardiness m in
          let m := Add (MaxEquality (EVar tardiness)
                          [ESub (EVar last_task_end) (EConst job_deadline);
                           EConst 0]) m in
          Ok (m, objective_terms ++ [EVar tardiness])
      end
  end.

(** The body of [create_model] once the data attributes are known. *)
Definition build_model (machines jobs : list Z) (df : DataFrame Z)
    (horizon : Z) : result (CpModel * gmap (Z * Z) TaskVars) :=
  let machine_to_intervals : gmap Z (list IntervalVar) :=
    list_to_map ((λ machine, (machine, [])) <$> machines) in
  let '(m, all_tasks, machine_to_intervals) :=
    foldl (add_task horizon) (empty_model, ∅, machine_to_intervals)
      (iterrows df) in
  (* 1. No overlap between tasks on same machine *)
  let m := foldl (λ m machine,
                    Add (NoOverlap (machine_to_intervals !!! machine)) m)
             m machines in
  (* 2. Task precedence within jobs *)
  let m := foldl (add_precedences all_tasks df) m jobs in
  (* 3. Minimize makespan *)
  let obj_var := makespan_var in
  let m := NewIntVar 0 horizon obj_var m in
  let m := Add (MaxEquality (EVar obj_var)
                  (jobs ≫= job_ends all_tasks df)) m in
  match foldl (add_tardiness all_tasks df horizon) (Ok (m, [EVar obj_var])) jobs with
  | Raise e => Raise e
  | Ok (m, objective_terms) =>
      Ok (Minimize (sum_expr objective_terms) m, all_tasks)
  end.

Definition fresh_solver : CpSolver := mkSolver None.

(** [self.model] and [self.solver] are assigned first, so they are set even
    when the data attributes are still [None] and the first loop raises. *)
Definition create_model : method unit := λ self,
  let self :=
    mkScheduler (Some empty_model) (Some fresh_solver) (jobs_data self)
      (machines self) (jobs self) (horizon self) (all_tasks self) in
  match machines self, jobs self, jobs_data self, horizon self with
  | Some ms, Some js, Some df, Some h =>
      match build_model ms js df h with
      | Ok (m, tasks) =>
          (Ok (),
           mkScheduler (Some m) (solver self) (jobs_data self) (machines self)
             (jobs self) (horizon self) (Some tasks))
      | Raise e => (Raise e, self)
      end
  | _, _, _, _ => (Raise (TypeError "'NoneType' object is not iterable"), self)
  end.

(** ** solve *)

(** One record of the returned schedule. *)
Record ScheduledTask : Type := mkScheduled {
  s_JobID : Z;
  s_TaskID : Z;
  s_MachineID : Z;
  s_Start : Z;
  s_End : Z;
  s_Duration : Z;
  s_Deadline : Z
}.

Fixpoint mapM {A B} (f : A → result B) (l : list A) : result (list B) :=
  match l with
  | [] => Ok []
  | x :: l =>
      match f x with
      | Raise e => Raise e
      | Ok y =>
          match mapM f l with
          | Raise e => Raise e
          | Ok ys => Ok (y :: ys)
          end
      end
  end.

(** The dictionary appended to [solution] for [(job, task)]. *)
Definition scheduled_task (Value : valuation) (all_tasks : gmap (Z * Z) TaskVars)
    (df : DataFrame Z) (job task : Z) : result ScheduledTask :=
  let task_data := all_tasks !!! (job, task) in
  match iloc0 (Duration <$> filter (λ r, JobID r = job ∧ TaskID r = task) df),
        iloc0 (Deadline <$> rows_of_job df job) with
  | Some duration, Some deadline =>
      Ok (mkScheduled job task (t_machine task_data)
            (Value (t_start task_data)) (Value (t_end task_data))
            duration deadline)
  | _, _ => Raise (IndexError "single positional indexer is out-of-bounds")
  end.

Definition extract_solution (Value : valuation) (all_tasks : gmap (Z * Z) TaskVars)
    (jobs : list Z) (df : DataFrame Z) : result (list ScheduledTask) :=
  mapM (λ jt, scheduled_task Value all_tasks df jt.1 jt.2)
    (jobs ≫= λ job, pair job <$> (TaskID <$> rows_of_job df job)).

(** [Solve] is the search engine: it maps the model to its response. *)
Definition solve (Solve : CpModel → Response) : method (list ScheduledTask) := λ self,
  match model self with
  | None =>
      (Raise (ValueError "Model not created. Call create_model() first."), self)
  | Some m =>
      match solver self with
      | None =>
          (Raise (AttributeError "'NoneType' object has no attribute 'Solve'"), self)
      | Some _ =>
          let r := Solve m in
          let self :=
            mkScheduler (model self) (Some (mkSolver (Some r))) (jobs_data self)
              (machines self) (jobs self) (horizon self) (all_tasks self) in
          if bool_decide (status r = OPTIMAL) || bool_decide (status r = FEASIBLE)
          then
            match jobs self, jobs_data self, all_tasks self with
            | Some js, Some df, Some tasks =>
                (extract_solution (Value r) tasks js df, self)
            | _, _, _ =>
                (Raise (TypeError "'NoneType' object is not iterable"), self)
            end
          else (Raise (Exception "No solution found."), self)
      end
  end.

(** ** get_makespan *)

Definition get_makespan (self : JobShopScheduler) : result Z :=
  match solver self with
  | None => Raise (ValueError "Problem not solved. Call solve() first.")
  | Some s =>
      match response s with
      | None => Raise (RuntimeError "solve() has not been called.")
      | Some r => Ok (ObjectiveValue r)
      end
  end.

(** ** Utilization *)

(** [df.groupby(key)[value].sum()]: one entry per distinct key, keys sorted. *)
Definition groupby_sum {A} (key value : A → Z) (df : list A) : list (Z * Z) :=
  (λ k, (k, sum (value <$> filter (λ r, key r = k) df))) <$>
    sorted_unique (key <$> df).

(** [{machine: 0.0 for machine in self.machines}] *)
Definition zero_utilization (machines : list Z) : gmap Z Q :=
  list_to_map ((λ machine, (machine, 0%Q)) <$> machines).

(** [(series / total_time).to_dict()] *)
Definition ratios (series : list (Z * Z)) (total_time : Z) : gmap Z Q :=
  list_to_map ((λ kv, (kv.1, (inject_Z kv.2 / inject_Z total_time)%Q)) <$> series).

Definition get_initial_machine_utilization (self : JobShopScheduler)
    : result (gmap Z Q) :=
  match jobs_data self with
  | None => Raise (AttributeError "'NoneType' object has no attribute 'groupby'")
  | Some df =>
      let machine_durations := groupby_sum MachineID Duration df in
      match horizon self, machines self with
      | Some total_time, Some ms =>
          if bool_decide (total_time = 0) then Ok (zero_utilization ms)
          else Ok (ratios machine_durations total_time)
      | _, _ => Raise (TypeError "unsupported operand type(s) for /")
      end
  end.

Definition get_optimized_machine_utilization (self : JobShopScheduler)
    (schedule_df : list ScheduledTask) : result (gmap Z Q) :=
  match schedule_df with
  | [] => Raise (KeyError "MachineID")
  | _ =>
      let machine_times :=
        groupby_sum s_MachineID (λ x, s_End x - s_Start x) schedule_df in
      match horizon self, machines self with
      | Some total_time, Some ms =>
          if bool_decide (total_time = 0) then Ok (zero_utilization ms)
          else Ok (ratios machine_times total_time)
      | _, _ => Raise (TypeError "unsupported operand type(s) for /")
      end
  end.

(** ** The search engine's contract *)

(** When the engine reports OPTIMAL or FEASIBLE, the values it gives satisfy
    the model and the objective value it reports is the objective under
    these values. *)
Definition solved (r : Response) : Prop :=
  status r = OPTIMAL ∨ status r = FEASIBLE.

Definition sound (r : Response) (m : CpModel) : Prop :=
  solved r →
  satisfies (Value r) m = true ∧ ObjectiveValue r = objective_value (Value r) m.

(** The whole pipeline up to the model: a fresh scheduler, [load_data],
    [create_model]. *)
Definition loaded (csv : DataFrame (option Z)) : JobShopScheduler :=
  (load_data csv init).2.

Definition encoded (csv : DataFrame (option Z)) : JobShopScheduler :=
  (create_model (loaded csv)).2.

(** * Definitions used in the statements *)

Definition key (r : Row Z) : Z * Z := (JobID r, TaskID r).

Definition interval_of (it : nat * Row Z) : IntervalVar :=
  mkInterval (start_var it.1) (Duration it.2) (end_var it.1).

Definition task_vars_of (it : nat * Row Z) : TaskVars :=
  mkTaskVars (start_var it.1) (end_var it.1) (interval_of it) (MachineID it.2).

(** The dictionaries of the first loop. *)
Definition all_tasks_of (df : DataFrame Z) : gmap (Z * Z) TaskVars :=
  foldl (λ d it, <[key it.2 := task_vars_of it]> d) ∅ (iterrows df).

Definition machine_to_intervals_of (machines : list Z) (df : DataFrame Z)
    : gmap Z (list IntervalVar) :=
  foldl (λ d it, alter (λ l, l ++ [interval_of it]) (MachineID it.2) d)
    (list_to_map ((λ machine, (machine, [])) <$> machines)) (iterrows df).

(** The precedence constraints of one job. *)
Definition precedences (tasks : gmap (Z * Z) TaskVars) (df : DataFrame Z)
    (job : Z) : list Constraint :=
  (λ i, LessOrEqual
          (EVar (t_end (tasks !!! (job, sorted_task_ids df job !!! i))))
          (EVar (t_start (tasks !!! (job, sorted_task_ids df job !!! S i))))) <$>
    seq 0 (length (sorted_task_ids df job) - 1).

(** [job_tasks['Deadline'].iloc[0]] *)
Definition job_deadline (df : DataFrame Z) (job : Z) : option Z :=
  iloc0 (Deadline <$> rows_of_job df job).

Definition tardiness_variables (h : Z) (job : Z) : list (IntVar * (Z * Z)) :=
  [(job_end_var job, (0, h)); (tardiness_var job, (0, h))].

Definition tardiness_constraints (tasks : gmap (Z * Z) TaskVars)
    (df : DataFrame Z) (job : Z) : list Constraint :=
  [MaxEquality (EVar (job_end_var job)) (job_ends tasks df job);
   MaxEquality (EVar (tardiness_var job))
     [ESub (EVar (job_end_var job)) (EConst (default 0 (job_deadline df job)));
      EConst 0]].

(** The model [create_model] builds, written out. *)
Definition task_variables (h : Z) (it : nat * Row Z) : list (IntVar * (Z * Z)) :=
  [(start_var it.1, (0, h)); (end_var it.1, (0, h))].

Definition built_model (ms js : list Z) (df : DataFrame Z) (h : Z) : CpModel :=
  let tasks := all_tasks_of df in
  mkModel
    ((iterrows df ≫= task_variables h) ++
     [(makespan_var, (0, h))] ++
     (js ≫= tardiness_variables h))
    (((λ it, Interval (interval_of it)) <$> iterrows df) ++
     ((λ machine, NoOverlap (machine_to_intervals_of ms df !!! machine)) <$> ms) ++
     (js ≫= precedences tasks df) ++
     [MaxEquality (EVar makespan_var) (js ≫= job_ends tasks df)] ++
     (js ≫= tardiness_constraints tasks df))
    (Some (sum_expr (EVar makespan_var :: ((λ j, EVar (tardiness_var j)) <$> js)))).

Definition machines_of (csv : DataFrame (option Z)) : list Z :=
  sorted_unique (MachineID <$> csv).

Definition jobs_of (csv : DataFrame (option Z)) : list Z :=
  sorted_unique (JobID <$> csv).

Definition horizon_of (csv : DataFrame (option Z)) : Z :=
  sum (Duration <$> csv).

Definition fill_row (h : Z) (r : Row (option Z)) : Row Z :=
  mkRow (JobID r) (TaskID r) (MachineID r) (Duration r) (fillna h (Deadline r)).

Definition filled (csv : DataFrame (option Z)) : DataFrame Z :=
  fill_row (horizon_of csv) <$> csv.

(** Python's [max(l)] (0 on the empty list, where Python raises). *)
Definition maximum (l : list Z) : Z :=
  match l with
  | [] => 0
  | x :: l => foldl Z.max x l
  end.

(** The record [solve] builds for the task [(job, task)]. *)
Definition record_of (val : valuation) (df : DataFrame Z) (jt : Z * Z)
    : ScheduledTask :=
  let task_data := all_tasks_of df !!! jt in
  mkScheduled jt.1 jt.2 (t_machine task_data)
    (val (t_start task_data)) (val (t_end task_data))
    (default 0 (iloc0 (Duration <$>
       filter (λ r, JobID r = jt.1 ∧ TaskID r = jt.2) df)))
    (default 0 (job_deadline df jt.1)).

(** The keys in the order [solve] visits them. *)
Definition visit_order (js : list Z) (df : DataFrame Z) : list (Z * Z) :=
  js ≫= λ job, pair job <$> (TaskID <$> rows_of_job df job).

Definition schedule_keys (schedule : list ScheduledTask) : list (Z * Z) :=
  (λ x, (s_JobID x, s_TaskID x)) <$> schedule.

(** Two jobs of two tasks on two machines, no deadlines. *)
Definition scenario_A : DataFrame (option Z) :=
  [mkRow 1 1 1 3 None; mkRow 1 2 2 2 None;
   mkRow 2 1 2 2 None; mkRow 2 2 1 4 None].

(** A schedule of [scenario_A] of makespan 7. *)
Definition schedule_A : valuation := λ v,
  match v with
  | start_var 0 => 0 | end_var 0 => 3
  | start_var 1 => 3 | end_var 1 => 5
  | start_var 2 => 0 | end_var 2 => 2
  | start_var 3 => 3 | end_var 3 => 7
  | makespan_var => 7
  | job_end_var 1 => 5
  | job_end_var 2 => 7
  | _ => 0
  end.

Definition engine_A : CpModel → Response := λ _, mkResponse OPTIMAL schedule_A 7.

(** An engine that finds nothing. *)
Definition engine_none : CpModel → Response := λ _, mkResponse INFEASIBLE (λ _, 0) 0.

(** One task of duration 5 whose job is due at 2. *)
Definition late_job : DataFrame (option Z) := [mkRow 1 1 1 5 (Some 2)].

(** End times of all tasks, and of the tasks of one job, under [val]. *)
Definition task_ends (val : valuation) (df : DataFrame Z) : list Z :=
  (λ it, val (end_var it.1)) <$> iterrows df.

Definition job_task_ends (val : valuation) (df : DataFrame Z) (job : Z) : list Z :=
  (λ it, val (end_var it.1)) <$> filter (λ it, JobID it.2 = job) (iterrows df).

(** [max(0, jobEnd - deadline)] *)
Definition tardiness (val : valuation) (df : DataFrame Z) (job : Z) : Z :=
  Z.max 0 (maximum (job_task_ends val df job) - default 0 (job_deadline df job)).

(** The only schedule of [late_job]. *)
Definition schedule_late : valuation := λ v,
  match v with
  | end_var 0 => 5
  | makespan_var => 5
  | job_end_var 1 => 5
  | tardiness_var 1 => 3
  | _ => 0
  end.

Definition engine_late : CpModel → Response := λ _, mkResponse OPTIMAL schedule_late 8.

(** A utilization map is well formed for the machines [ms] and horizon [h]:
    its keys are the machines, its entries lie in [[0, 1]], and all entries
    are 0 when the horizon is 0. *)
Definition well_formed (u : gmap Z Q) (ms : list Z) (h : Z) : Prop :=
  (∀ machine, is_Some (u !! machine) ↔ machine ∈ ms) ∧
  (∀ machine q, u !! machine = Some q → (0 <= q)%Q ∧ (q <= 1)%Q) ∧
  (h = 0 → ∀ machine q, u !! machine = Some q → q = 0%Q).

(** ** The optimizer run of the application ([app/app.py], [main]) *)

(** [sum(d.values())] *)
Definition sum_values (u : gmap Z Q) : Q :=
  foldl Qplus 0%Q ((map_to_list u).*2).

(** [sum(u.values()) / len(u) if u else 0] *)
Definition average_utilization (u : gmap Z Q) : Q :=
  if decide (u = ∅) then 0%Q
  else (sum_values u / inject_Z (Z.of_nat (size u)))%Q.

(** The percentage shown beside the average utilization. *)
Definition improvement_percent (initial_total_util optimized_total_util : Q) : Q :=
  if Qlt_le_dec 0 initial_total_util
  then ((optimized_total_util - initial_total_util) / initial_total_util * 100)%Q
  else 0%Q.

(** What the run computes before it renders anything. *)
Record OptimizerOutput : Type := mkOutput {
  schedule_df : list ScheduledTask;
  makespan : Z;
  before_util : gmap Z Q;
  after_util : gmap Z Q;
  initial_total_util : Q;
  optimized_total_util : Q;
  util_improvement_percent : Q
}.

(** The body of the [try] block of [main] up to the computed figures, on a
    fresh scheduler; an exception of any step ends the run. *)
Definition run_optimizer (Solve : CpModel → Response)
    (csv : DataFrame (option Z)) : result OptimizerOutput :=
  let scheduler := init in
  match load_data csv scheduler with
  | (Raise e, _) => Raise e
  | (Ok _, scheduler) =>
  match create_model scheduler with
  | (Raise e, _) => Raise e
  | (Ok _, scheduler) =>
  match solve Solve scheduler with
  | (Raise e, _) => Raise e
  | (Ok schedule_df, scheduler) =>
  match get_makespan scheduler with
  | Raise e => Raise e
  | Ok makespan =>
  match get_initial_machine_utilization scheduler with
  | Raise e => Raise e
  | Ok before_util =>
  match get_optimized_machine_utilization scheduler schedule_df with
  | Raise e => Raise e
  | Ok after_util =>
      let initial_total_util := average_utilization before_util in
      let optimized_total_util := average_utilization after_util in
      Ok (mkOutput schedule_df makespan before_util after_util
            initial_total_util optimized_total_util
            (improvement_percent initial_total_util optimized_total_util))
  end end end end end end.

(** ** The Gantt chart data ([visualization/visualizer.py],
    [ScheduleVisualizer.create_gantt_chart])

    The definitions are for a schedule with at least one record: the frame
    of an empty schedule has no columns, and reading its [JobID] column
    raises [KeyError]. *)

Definition color_palette : list string :=
  ["rgb(46, 137, 205)"; "rgb(114, 44, 121)"; "rgb(198, 47, 105)";
   "rgb(58, 149, 136)"; "rgb(107, 127, 135)"; "rgb(255, 165, 0)";
   "rgb(0, 128, 0)"; "rgb(128, 0, 128)"; "rgb(255, 0, 0)";
   "rgb(0, 255, 0)"; "rgb(0, 0, 255)"; "rgb(255, 255, 0)"].

(** [f"Job {job_id}"] *)
Definition job_label (job_id : Z) : string := "Job " +:+ pretty job_id.

(** [unique_jobs = sorted(schedule_df['JobID'].unique())] *)
Definition unique_jobs (schedule_df : list ScheduledTask) : list Z :=
  sorted_unique (s_JobID <$> schedule_df).

(** The dictionary from job label to colour, filled over
    [enumerate(unique_jobs)]. *)
Definition job_colors (schedule_df : list ScheduledTask) : gmap string string :=
  foldl (λ d ij,
           <[job_label ij.2 :=
               color_palette !!! (ij.1 `mod` length color_palette)%nat]> d)
    ∅ (imap pair (unique_jobs schedule_df)).

(** One entry of the list handed to the chart. *)
Record GanttTask : Type := mkGanttTask {
  Task : string;
  Start : Z;
  Finish : Z;
  Resource : string;
  Description : string
}.

Definition gantt_tasks (schedule_df : list ScheduledTask) : list GanttTask :=
  (λ row, mkGanttTask ("Machine " +:+ pretty (s_MachineID row))
            (s_Start row) (s_End row) (job_label (s_JobID row))
            ("Task " +:+ pretty (s_TaskID row))) <$> schedule_df.

(** [color_palette[i % len(color_palette)]] for the pair [(i, job_id)] *)
Definition color_of (ij : nat * Z) : string :=
  color_palette !!! (ij.1 `mod` length color_palette)%nat.

(** ** The serial schedule *)

(** Lexicographic order on task keys: by job, then by task. *)
Definition key_lt (a b : Z * Z) : Prop :=
  a.1 < b.1 ∨ (a.1 = b.1 ∧ a.2 < b.2).

#[global] Instance key_lt_dec (a b : Z * Z) : Decision (key_lt a b).
Proof. unfold key_lt. apply _. Defined.

(** Tasks run one after another in key order: a task starts when all tasks
    with a smaller key are done. *)
Definition serial_start (df : DataFrame Z) (r : Row Z) : Z :=
  sum (Duration <$> filter (λ r', key_lt (key r') (key r)) df).

Definition serial_end (df : DataFrame Z) (r : Row Z) : Z :=
  serial_start df r + Duration r.

Definition serial (df : DataFrame Z) : valuation := λ v,
  match v with
  | start_var i => from_option (serial_start df) 0 (df !! i)
  | end_var i => from_option (serial_end df) 0 (df !! i)
  | makespan_var => maximum (serial_end df <$> df)
  | job_end_var job => maximum (serial_end df <$> rows_of_job df job)
  | tardiness_var job =>
      Z.max 0 (maximum (serial_end df <$> rows_of_job df job)
               - default 0 (job_deadline df job))
  end.

(** * Properties *)

(** ** Lists, sorting and sums *)

Lemma forallb_elem_of {A} (f : A → bool) (l : list A) :
  forallb f l = true ↔ ∀ x, x ∈ l → f x = true.
Proof.
  rewrite forallb_forall. split; intros H x Hx; apply H.
  - by apply list_elem_of_In.
  - by apply list_elem_of_In.
Qed.

Lemma elem_of_sorted_unique (x : Z) (l : list Z) :
  x ∈ sorted_unique l ↔ x ∈ l.
Proof.
  unfold sorted_unique.
  rewrite (merge_sort_Permutation Z.le (remove_dups l)).
  apply elem_of_remove_dups.
Qed.

Lemma NoDup_sorted_unique (l : list Z) : NoDup (sorted_unique l).
Proof.
  unfold sorted_unique.
  rewrite (merge_sort_Permutation Z.le (remove_dups l)).
  apply NoDup_remove_dups.
Qed.

Lemma filter_all {A} (P : A → Prop) `{∀ x, Decision (P x)} (l : list A) :
  (∀ x, x ∈ l → P x) → filter P l = l.
Proof.
  induction l as [|x l IH]; intros HP; [done|].
  rewrite filter_cons_True by (apply HP; left).
  rewrite IH; [done|]. intros y Hy. apply HP. by right.
Qed.

Lemma sum_cons (x : Z) (l : list Z) : sum (x :: l) = x + sum l.
Proof. reflexivity. Qed.

Lemma sum_nonneg (l : list Z) : (∀ x, x ∈ l → 0 ≤ x) → 0 ≤ sum l.
Proof.
  induction l as [|x l IH]; intros H; [done|].
  assert (0 ≤ x) by (apply H; left).
  assert (0 ≤ sum l) by (apply IH; intros y Hy; apply H; by right).
  rewrite sum_cons. lia.
Qed.

(** The sum over a selection of a list of non-negative numbers is at most
    the sum over the list. *)
Lemma sum_filter_le {A} (f : A → Z) (P : A → Prop) `{∀ x, Decision (P x)}
    (l : list A) :
  (∀ x, x ∈ l → 0 ≤ f x) → sum (f <$> filter P l) ≤ sum (f <$> l).
Proof.
  induction l as [|x l IH]; intros Hpos; [done|].
  assert (0 ≤ f x) by (apply Hpos; left).
  assert (sum (f <$> filter P l) ≤ sum (f <$> l))
    by (apply IH; intros y Hy; apply Hpos; by right).
  rewrite filter_cons, fmap_cons, sum_cons.
  destruct (decide (P x)); [rewrite fmap_cons, sum_cons|]; lia.
Qed.

(** ** What the loops of [create_model] build *)

Lemma foldl_add_task (h : Z) (its : list (nat * Row Z)) (st : task_loop_state) :
  foldl (add_task h) st its =
  (mkModel
     (variables st.1.1 ++
        (its ≫= λ it, [(start_var it.1, (0, h)); (end_var it.1, (0, h))]))
     (constraints st.1.1 ++ ((λ it, Interval (interval_of it)) <$> its))
     (objective st.1.1),
   foldl (λ d it, <[key it.2 := task_vars_of it]> d) st.1.2 its,
   foldl (λ d it, alter (λ l, l ++ [interval_of it]) (MachineID it.2) d) st.2 its).
Proof.
  revert st. induction its as [|[i r] its IH]; intros [[m d] mi].
  - simpl. rewrite !app_nil_r. by destruct m.
  - simpl foldl. rewrite IH. simpl.
    rewrite <- !app_assoc. reflexivity.
Qed.

Lemma foldl_Add {A} (f : A → Constraint) (l : list A) (m : CpModel) :
  foldl (λ m x, Add (f x) m) m l =
  mkModel (variables m) (constraints m ++ (f <$> l)) (objective m).
Proof.
  revert m. induction l as [|x l IH]; intros m.
  - simpl. rewrite app_nil_r. by destruct m.
  - simpl foldl. rewrite IH. simpl. by rewrite <- app_assoc.
Qed.

Lemma foldl_add_precedences tasks df (js : list Z) (m : CpModel) :
  foldl (add_precedences tasks df) m js =
  mkModel (variables m) (constraints m ++ (js ≫= precedences tasks df))
    (objective m).
Proof.
  revert m. induction js as [|j js IH]; intros m.
  - simpl. rewrite app_nil_r. by destruct m.
  - simpl foldl. rewrite IH. unfold add_precedences.
    rewrite foldl_Add. simpl. by rewrite <- app_assoc.
Qed.

Lemma foldl_add_tardiness tasks df h (js : list Z) (m : CpModel)
    (terms : list LinearExpr) :
  (∀ j, j ∈ js → is_Some (job_deadline df j)) →
  foldl (add_tardiness tasks df h) (Ok (m, terms)) js =
  Ok (mkModel (variables m ++ (js ≫= tardiness_variables h))
        (constraints m ++ (js ≫= tardiness_constraints tasks df))
        (objective m),
      terms ++ ((λ j, EVar (tardiness_var j)) <$> js)).
Proof.
  revert m terms. induction js as [|j js IH]; intros m terms Hjs.
  - simpl. rewrite !app_nil_r. by destruct m.
  - simpl foldl.
    destruct (Hjs j) as [d Hd]; [left|].
    assert (Hc : tardiness_constraints tasks df j =
      [MaxEquality (EVar (job_end_var j)) (job_ends tasks df j);
       MaxEquality (EVar (tardiness_var j))
         [ESub (EVar (job_end_var j)) (EConst d); EConst 0]])
      by (unfold tardiness_constraints; by rewrite Hd).
    unfold job_deadline in Hd. rewrite Hd.
    rewrite IH by (intros j' Hj'; apply Hjs; by right).
    rewrite !bind_cons, Hc. simpl.
    rewrite <- !app_assoc. reflexivity.
Qed.

Lemma build_model_eq (ms js : list Z) (df : DataFrame Z) (h : Z) :
  (∀ j, j ∈ js → is_Some (job_deadline df j)) →
  build_model ms js df h = Ok (built_model ms js df h, all_tasks_of df).
Proof.
  intros Hjs. unfold build_model.
  rewrite foldl_add_task. cbn [fst snd].
  rewrite foldl_Add, foldl_add_precedences.
  unfold NewIntVar, Add. cbn [variables constraints objective empty_model].
  fold (all_tasks_of df). fold (machine_to_intervals_of ms df).
  rewrite foldl_add_tardiness by done.
  unfold Minimize, built_model, task_variables.
  cbn [variables constraints objective app].
  rewrite <- !app_assoc. reflexivity.
Qed.

(** ** The data [load_data] stores *)

Lemma loaded_eq (csv : DataFrame (option Z)) :
  loaded csv =
  mkScheduler None None (Some (filled csv)) (Some (machines_of csv))
    (Some (jobs_of csv)) (Some (horizon_of csv)) None.
Proof. reflexivity. Qed.

Lemma filled_lookup (csv : DataFrame (option Z)) (i : nat) (r : Row Z) :
  filled csv !! i = Some r ↔
  ∃ r0, csv !! i = Some r0 ∧ r = fill_row (horizon_of csv) r0.
Proof.
  unfold filled. rewrite list_lookup_fmap.
  destruct (csv !! i) as [r0|]; simpl; split.
  - intros [= <-]. eauto.
  - intros (r1 & [= <-] & ->). done.
  - done.
  - intros (r1 & [=] & _).
Qed.

Lemma JobID_filled csv : JobID <$> filled csv = JobID <$> csv.
Proof. unfold filled. rewrite <- list_fmap_compose. done. Qed.

Lemma MachineID_filled csv : MachineID <$> filled csv = MachineID <$> csv.
Proof. unfold filled. rewrite <- list_fmap_compose. done. Qed.

Lemma Duration_filled csv : Duration <$> filled csv = Duration <$> csv.
Proof. unfold filled. rewrite <- list_fmap_compose. done. Qed.

(** Every job of the instance has a row, hence a deadline. *)
Lemma job_has_row (df : DataFrame Z) (j : Z) :
  j ∈ sorted_unique (JobID <$> df) → ∃ r, r ∈ df ∧ JobID r = j.
Proof.
  rewrite elem_of_sorted_unique, list_elem_of_fmap.
  intros (r & -> & Hr). eauto.
Qed.

Lemma job_deadline_is_Some (df : DataFrame Z) (j : Z) :
  j ∈ sorted_unique (JobID <$> df) → is_Some (job_deadline df j).
Proof.
  intros (r & Hr & Hj)%job_has_row.
  unfold job_deadline, iloc0, rows_of_job.
  assert (Hin : r ∈ filter (λ r, JobID r = j) df) by (by apply list_elem_of_filter).
  destruct (filter (λ r, JobID r = j) df) as [|r' l]; [by apply elem_of_nil in Hin|].
  simpl. eauto.
Qed.

Lemma encoded_eq (csv : DataFrame (option Z)) :
  encoded csv =
  mkScheduler
    (Some (built_model (machines_of csv) (jobs_of csv) (filled csv) (horizon_of csv)))
    (Some fresh_solver) (Some (filled csv)) (Some (machines_of csv))
    (Some (jobs_of csv)) (Some (horizon_of csv))
    (Some (all_tasks_of (filled csv))).
Proof.
  unfold encoded, create_model. rewrite loaded_eq.
  cbn [machines jobs jobs_data horizon model solver all_tasks].
  rewrite build_model_eq; [done|].
  intros j Hj. apply job_deadline_is_Some.
  rewrite JobID_filled. exact Hj.
Qed.

(** ** The dictionaries *)

Lemma elem_of_iterrows {D} (df : DataFrame D) (i : nat) (r : Row D) :
  (i, r) ∈ iterrows df ↔ df !! i = Some r.
Proof.
  unfold iterrows. rewrite elem_of_lookup_imap. split.
  - intros (i' & r' & [= -> ->] & H). done.
  - intros H. eauto.
Qed.

(** A key is bound to the variables of some row that carries this key. *)
Lemma foldl_insert_lookup (its : list (nat * Row Z))
    (d : gmap (Z * Z) TaskVars) (k : Z * Z) (tv : TaskVars) :
  foldl (λ d it, <[key it.2 := task_vars_of it]> d) d its !! k = Some tv →
  (∃ it, it ∈ its ∧ key it.2 = k ∧ tv = task_vars_of it) ∨ d !! k = Some tv.
Proof.
  revert d. induction its as [|it its IH]; intros d H; [by right|].
  simpl in H. apply IH in H as [(it' & Hin & Hk & ->)|H].
  - left. exists it'. split; [by right|done].
  - destruct (decide (key it.2 = k)) as [Hk|Hk].
    + rewrite Hk, lookup_insert_eq in H. injection H as <-.
      left. exists it. split; [left|done].
    + rewrite lookup_insert_ne in H by done. by right.
Qed.

Lemma foldl_insert_is_Some (its : list (nat * Row Z))
    (d : gmap (Z * Z) TaskVars) (k : Z * Z) :
  (∃ it, it ∈ its ∧ key it.2 = k) ∨ is_Some (d !! k) →
  is_Some (foldl (λ d it, <[key it.2 := task_vars_of it]> d) d its !! k).
Proof.
  revert d. induction its as [|it its IH]; intros d H.
  - destruct H as [(it & Hin & _)|H]; [by apply elem_of_nil in Hin|done].
  - simpl. apply IH.
    destruct H as [(it' & Hin & Hk)|H].
    + apply elem_of_cons in Hin as [->|Hin]; [|left; eauto].
      right. rewrite Hk, lookup_insert_eq. eauto.
    + right. destruct (decide (key it.2 = k)) as [Hk|Hk].
      * rewrite Hk, lookup_insert_eq. eauto.
      * by rewrite lookup_insert_ne.
Qed.

(** [all_tasks[job, task]] never raises [KeyError] for the key of a row,
    and it is the entry of a row with this key. *)
Lemma all_tasks_lookup (df : DataFrame Z) (r : Row Z) :
  r ∈ df →
  ∃ i r', df !! i = Some r' ∧ key r' = key r ∧
    all_tasks_of df !! key r = Some (task_vars_of (i, r')) ∧
    all_tasks_of df !!! key r = task_vars_of (i, r').
Proof.
  intros Hr. apply list_elem_of_lookup in Hr as [i0 Hi0].
  destruct (foldl_insert_is_Some (iterrows df) ∅ (key r)) as [tv Htv].
  { left. exists (i0, r). split; [by apply elem_of_iterrows|done]. }
  fold (all_tasks_of df) in Htv.
  destruct (foldl_insert_lookup _ _ _ _ Htv) as [([i r'] & Hin & Hk & ->)|H].
  - apply elem_of_iterrows in Hin. exists i, r'.
    repeat split; [done|done|done|]. by apply lookup_total_correct.
  - by rewrite lookup_empty in H.
Qed.

(** With distinct keys the entry of a row's key is that row's own. *)
Lemma all_tasks_lookup_NoDup (df : DataFrame Z) (i : nat) (r : Row Z) :
  NoDup (key <$> df) → df !! i = Some r →
  all_tasks_of df !!! key r = task_vars_of (i, r).
Proof.
  intros Hnd Hi.
  destruct (all_tasks_lookup df r) as (i' & r' & Hi' & Hk & _ & ->).
  { apply list_elem_of_lookup. eauto. }
  assert (i' = i) as ->.
  { eapply NoDup_lookup; [exact Hnd| |].
    - rewrite list_lookup_fmap, Hi'. simpl. by rewrite Hk.
    - by rewrite list_lookup_fmap, Hi. }
  congruence.
Qed.

Lemma list_to_map_const_lookup {V} (c : V) (ms : list Z) (k : Z) :
  k ∈ ms →
  (list_to_map ((λ machine, (machine, c)) <$> ms) : gmap Z V) !! k = Some c.
Proof.
  induction ms as [|m ms IH]; intros Hk; [by apply elem_of_nil in Hk|].
  simpl. destruct (decide (m = k)) as [->|Hne].
  - by rewrite lookup_insert_eq.
  - rewrite lookup_insert_ne by done. apply IH.
    apply elem_of_cons in Hk as [->|Hk]; done.
Qed.

Lemma list_to_map_const_dom {V} (c : V) (ms : list Z) (k : Z) (v : V) :
  (list_to_map ((λ machine, (machine, c)) <$> ms) : gmap Z V) !! k = Some v →
  k ∈ ms ∧ v = c.
Proof.
  induction ms as [|m ms IH]; simpl; intros H; [by rewrite lookup_empty in H|].
  destruct (decide (m = k)) as [->|Hne].
  - rewrite lookup_insert_eq in H. injection H as <-. split; [left|done].
  - rewrite lookup_insert_ne in H by done.
    destruct (IH H) as [Hk ->]. split; [by right|done].
Qed.

Lemma foldl_alter_lookup (its : list (nat * Row Z))
    (d : gmap Z (list IntervalVar)) (machine : Z) :
  foldl (λ d it, alter (λ l, l ++ [interval_of it]) (MachineID it.2) d) d its
    !! machine =
  (λ l, l ++ (interval_of <$> filter (λ it, MachineID it.2 = machine) its)) <$>
    d !! machine.
Proof.
  revert d. induction its as [|it its IH]; intros d.
  - simpl. destruct (d !! machine); simpl; [by rewrite app_nil_r|done].
  - simpl foldl. rewrite IH, filter_cons.
    destruct (decide (MachineID it.2 = machine)) as [<-|Hne].
    + rewrite lookup_alter_eq. destruct (d !! MachineID it.2); simpl; [|done].
      by rewrite <- app_assoc.
    + rewrite lookup_alter_ne by done. done.
Qed.

(** The intervals of a known machine: those of its rows, in row order. *)
Lemma machine_to_intervals_lookup (ms : list Z) (df : DataFrame Z) (machine : Z) :
  machine ∈ ms →
  machine_to_intervals_of ms df !!! machine =
  interval_of <$> filter (λ it, MachineID it.2 = machine) (iterrows df).
Proof.
  intros Hm. apply lookup_total_correct.
  unfold machine_to_intervals_of.
  rewrite foldl_alter_lookup, list_to_map_const_lookup by done. done.
Qed.

(** ** What the constraints mean *)

Lemma foldl_max_spec (l : list Z) (x : Z) :
  (foldl Z.max x l = x ∨ foldl Z.max x l ∈ l) ∧
  x ≤ foldl Z.max x l ∧ ∀ y, y ∈ l → y ≤ foldl Z.max x l.
Proof.
  revert x. induction l as [|a l IH]; intros x; simpl.
  - split; [by left|]. split; [lia|]. intros y Hy. by apply elem_of_nil in Hy.
  - destruct (IH (Z.max x a)) as (Hin & Hle & Hall).
    split; [|split].
    + destruct Hin as [Heq|Hin].
      * rewrite Heq. destruct (Z.max_spec x a) as [[_ ->]|[_ ->]];
          [right; left|by left].
      * right. by right.
    + lia.
    + intros y [->|Hy]%elem_of_cons; [lia|by apply Hall].
Qed.

(** A value of the list that bounds the list is its maximum. *)
Lemma maximum_unique (l : list Z) (x : Z) :
  x ∈ l → (∀ y, y ∈ l → y ≤ x) → x = maximum l.
Proof.
  destruct l as [|a l]; intros Hin Hub; [by apply elem_of_nil in Hin|].
  simpl. destruct (foldl_max_spec l a) as (Hm & Hle & Hall).
  assert (foldl Z.max a l ≤ x).
  { destruct Hm as [->|Hm]; apply Hub; [left|by right]. }
  apply elem_of_cons in Hin as [->|Hin]; [lia|].
  specialize (Hall x Hin). lia.
Qed.

Lemma max_equality_spec (val : valuation) (t : LinearExpr) (es : list LinearExpr) :
  max_equality val t es = true →
  eval val t ∈ (eval val <$> es) ∧ ∀ y, y ∈ (eval val <$> es) → y ≤ eval val t.
Proof.
  unfold max_equality. intros [Hex Hall]%andb_true_iff. split.
  - apply existsb_exists in Hex as (e & He & Heq).
    apply bool_decide_eq_true in Heq. rewrite Heq.
    apply list_elem_of_fmap. exists e. split; [done|by apply list_elem_of_In].
  - intros y (e & -> & He)%list_elem_of_fmap.
    rewrite forallb_elem_of in Hall. specialize (Hall e He).
    by apply bool_decide_eq_true in Hall.
Qed.

Lemma max_equality_maximum (val : valuation) (t : LinearExpr)
    (es : list LinearExpr) :
  max_equality val t es = true → eval val t = maximum (eval val <$> es).
Proof.
  intros [Hin Hub]%max_equality_spec. by apply maximum_unique.
Qed.

(** Lists with the same values have the same maximum, when one is reached. *)
Lemma maximum_ext (l k : list Z) (x : Z) :
  (∀ y, y ∈ l ↔ y ∈ k) → x ∈ l → (∀ y, y ∈ l → y ≤ x) → x = maximum k.
Proof.
  intros Hlk Hin Hub. apply maximum_unique; [by apply Hlk|].
  intros y Hy. apply Hub. by apply Hlk.
Qed.

Lemma disjoint_sym (val : valuation) (a b : IntervalVar) :
  disjoint val a b = disjoint val b a.
Proof. unfold disjoint. apply orb_comm. Qed.

Lemma no_overlap_pairwise (val : valuation) (ivs : list IntervalVar)
    (a b : IntervalVar) :
  no_overlap val ivs = true → a ∈ ivs → b ∈ ivs → a ≠ b →
  disjoint val a b = true.
Proof.
  induction ivs as [|c ivs IH]; intros Hno Ha Hb Hne;
    [by apply elem_of_nil in Ha|].
  simpl in Hno. apply andb_true_iff in Hno as [Hc Hrest].
  rewrite forallb_elem_of in Hc.
  apply elem_of_cons in Ha as [->|Ha]; apply elem_of_cons in Hb as [->|Hb].
  - done.
  - by apply Hc.
  - rewrite disjoint_sym. by apply Hc.
  - by apply IH.
Qed.

(** Disjoint intervals share no instant of [[start, end)]. *)
Lemma disjoint_no_common_instant (val : valuation) (a b : IntervalVar) (t : Z) :
  disjoint val a b = true →
  ¬ (val (iv_start a) ≤ t < val (iv_end a) ∧
     val (iv_start b) ≤ t < val (iv_end b)).
Proof.
  unfold disjoint. intros [H|H]%orb_true_iff; apply bool_decide_eq_true in H; lia.
Qed.

Section satisfied.
Variables (ms js : list Z) (df : DataFrame Z) (h : Z) (val : valuation).
Hypothesis Hsat : satisfies val (built_model ms js df h) = true.

Lemma sat_variable (d : IntVar * (Z * Z)) :
  d ∈ variables (built_model ms js df h) → d.2.1 ≤ val d.1 ≤ d.2.2.
Proof.
  intros Hd. apply andb_true_iff in Hsat as [Hv _].
  rewrite forallb_elem_of in Hv. specialize (Hv d Hd).
  apply andb_true_iff in Hv as [H1 H2].
  apply bool_decide_eq_true in H1, H2. done.
Qed.

Lemma sat_constraint (c : Constraint) :
  c ∈ constraints (built_model ms js df h) → holds val c = true.
Proof.
  intros Hc. apply andb_true_iff in Hsat as [_ Hcs].
  rewrite forallb_elem_of in Hcs. by apply Hcs.
Qed.

Lemma sat_task (i : nat) (r : Row Z) :
  df !! i = Some r →
  0 ≤ val (start_var i) ≤ h ∧ 0 ≤ val (end_var i) ≤ h ∧
  val (start_var i) + Duration r = val (end_var i) ∧ 0 ≤ Duration r.
Proof.
  intros Hi. apply elem_of_iterrows in Hi.
  assert (Hs : (start_var i, (0, h)) ∈ variables (built_model ms js df h)).
  { simpl. apply elem_of_app. left. apply list_elem_of_bind.
    exists (i, r). split; [left|done]. }
  assert (He : (end_var i, (0, h)) ∈ variables (built_model ms js df h)).
  { simpl. apply elem_of_app. left. apply list_elem_of_bind.
    exists (i, r). split; [right; left|done]. }
  apply sat_variable in Hs, He. simpl in Hs, He.
  assert (Hc : Interval (interval_of (i, r)) ∈
               constraints (built_model ms js df h)).
  { simpl. apply elem_of_app. left. apply list_elem_of_fmap. eauto. }
  apply sat_constraint in Hc. simpl in Hc.
  apply andb_true_iff in Hc as [H1 H2].
  apply bool_decide_eq_true in H1, H2. done.
Qed.

Lemma sat_no_overlap (machine : Z) :
  machine ∈ ms →
  no_overlap val
    (interval_of <$> filter (λ it, MachineID it.2 = machine) (iterrows df)) = true.
Proof.
  intros Hm. rewrite <- (machine_to_intervals_lookup ms) by done.
  apply (sat_constraint (NoOverlap (machine_to_intervals_of ms df !!! machine))).
  simpl. apply elem_of_app. right. apply elem_of_app. left.
  apply list_elem_of_fmap. eauto.
Qed.

Lemma sat_precedence (job : Z) (c : Constraint) :
  job ∈ js → c ∈ precedences (all_tasks_of df) df job → holds val c = true.
Proof.
  intros Hj Hc. apply sat_constraint. simpl.
  apply elem_of_app. right. apply elem_of_app. right. apply elem_of_app. left.
  apply list_elem_of_bind. eauto.
Qed.

Lemma sat_makespan :
  max_equality val (EVar makespan_var) (js ≫= job_ends (all_tasks_of df) df) = true.
Proof.
  apply (sat_constraint (MaxEquality _ _)). simpl.
  apply elem_of_app. right. apply elem_of_app. right. apply elem_of_app. right.
  left.
Qed.

Lemma sat_job_end (job : Z) :
  job ∈ js →
  max_equality val (EVar (job_end_var job)) (job_ends (all_tasks_of df) df job) = true.
Proof.
  intros Hj. apply (sat_constraint (MaxEquality _ _)). simpl.
  apply elem_of_app. right. apply elem_of_app. right. apply elem_of_app. right.
  right. apply list_elem_of_bind. exists job. split; [left|done].
Qed.

Lemma sat_tardiness (job : Z) :
  job ∈ js →
  val (tardiness_var job) =
  Z.max 0 (val (job_end_var job) - default 0 (job_deadline df job)).
Proof.
  intros Hj.
  assert (Hc : max_equality val (EVar (tardiness_var job))
            [ESub (EVar (job_end_var job))
               (EConst (default 0 (job_deadline df job))); EConst 0] = true).
  { apply (sat_constraint (MaxEquality _ _)). simpl.
    apply elem_of_app. right. apply elem_of_app. right. apply elem_of_app. right.
    right. apply list_elem_of_bind. exists job. split; [right; left|done]. }
  apply max_equality_maximum in Hc. simpl in Hc. lia.
Qed.

Lemma sat_job_end_domain (job : Z) :
  job ∈ js → 0 ≤ val (job_end_var job) ≤ h.
Proof.
  intros Hj.
  apply (sat_variable (job_end_var job, (0, h))). simpl.
  apply elem_of_app. right. right. apply list_elem_of_bind.
  exists job. split; [left|done].
Qed.
End satisfied.

(** ** The returned schedule *)

Lemma mapM_Ok {A B} (f : A → result B) (g : A → B) (l : list A) :
  (∀ x, x ∈ l → f x = Ok (g x)) → mapM f l = Ok (g <$> l).
Proof.
  induction l as [|x l IH]; intros H; [done|].
  simpl. rewrite (H x) by left.
  rewrite IH by (intros y Hy; apply H; by right). done.
Qed.

Lemma elem_of_visit_order (js : list Z) (df : DataFrame Z) (jt : Z * Z) :
  jt ∈ visit_order js df ↔ jt.1 ∈ js ∧ ∃ r, r ∈ df ∧ key r = jt.
Proof.
  unfold visit_order. rewrite list_elem_of_bind. split.
  - intros (job & Hin & Hjob).
    apply list_elem_of_fmap in Hin as (task & -> & Htask).
    apply list_elem_of_fmap in Htask as (r & -> & Hr).
    apply list_elem_of_filter in Hr as [Hj Hr].
    split; [done|]. exists r. split; [done|]. unfold key. by rewrite Hj.
  - intros (Hj & r & Hr & <-). exists (JobID r). split; [|done].
    apply list_elem_of_fmap. exists (TaskID r). split; [done|].
    apply list_elem_of_fmap. exists r. split; [done|].
    by apply list_elem_of_filter.
Qed.

Lemma extract_solution_eq (val : valuation) (js : list Z) (df : DataFrame Z) :
  extract_solution val (all_tasks_of df) js df =
  Ok (record_of val df <$> visit_order js df).
Proof.
  unfold extract_solution. fold (visit_order js df). apply mapM_Ok.
  intros [job task] (_ & r & Hr & Hk)%elem_of_visit_order.
  injection Hk as Hj Ht. unfold scheduled_task. cbn [fst snd].
  assert (H1 : r ∈ filter (λ r, JobID r = job ∧ TaskID r = task) df)
    by (by apply list_elem_of_filter).
  assert (H2 : r ∈ rows_of_job df job) by (by apply list_elem_of_filter).
  unfold record_of, job_deadline. cbn [fst snd].
  destruct (filter (λ r, JobID r = job ∧ TaskID r = task) df);
    [by apply elem_of_nil in H1|].
  destruct (rows_of_job df job); [by apply elem_of_nil in H2|].
  done.
Qed.

(** The rows grouped by job are the rows, in another order. *)
Lemma filter_split_Permutation (df : DataFrame Z) (j : Z) (js : list Z) :
  j ∉ js →
  filter (λ r, JobID r = j) df ++ filter (λ r, JobID r ∈ js) df ≡ₚ
  filter (λ r, JobID r ∈ j :: js) df.
Proof.
  intros Hj. induction df as [|r df IH]; [done|].
  rewrite !filter_cons.
  destruct (decide (JobID r = j)) as [Heq|Hne].
  - rewrite decide_False by (by rewrite Heq).
    rewrite decide_True by (rewrite Heq; left).
    simpl. by rewrite IH.
  - destruct (decide (JobID r ∈ js)) as [Hin|Hnin].
    + rewrite decide_True by (by right).
      rewrite <- Permutation_middle. by rewrite IH.
    + rewrite decide_False; [done|].
      intros [?|?]%elem_of_cons; done.
Qed.

Lemma grouped_Permutation (df : DataFrame Z) (js : list Z) :
  NoDup js → js ≫= rows_of_job df ≡ₚ filter (λ r, JobID r ∈ js) df.
Proof.
  induction 1 as [|j js Hj Hnd IH].
  - simpl. induction df as [|r df IHdf]; [done|].
    rewrite filter_cons. rewrite decide_False; [done|]. apply not_elem_of_nil.
  - rewrite bind_cons, IH. unfold rows_of_job.
    by apply filter_split_Permutation.
Qed.

Lemma visit_order_Permutation (df : DataFrame Z) :
  visit_order (sorted_unique (JobID <$> df)) df ≡ₚ key <$> df.
Proof.
  unfold visit_order.
  assert (Heq : ∀ job,
    pair job <$> (TaskID <$> rows_of_job df job) = key <$> rows_of_job df job).
  { intros job. rewrite <- list_fmap_compose. apply list_fmap_ext.
    intros i r Hr. apply list_elem_of_lookup_2 in Hr.
    apply list_elem_of_filter in Hr as [Hj _]. simpl. unfold key. by rewrite Hj. }
  rewrite (list_bind_ext _ (λ job, key <$> rows_of_job df job) _
             (sorted_unique (JobID <$> df))) by done.
  assert (Hb : ∀ js : list Z,
    js ≫= (λ job, key <$> rows_of_job df job) = key <$> (js ≫= rows_of_job df)).
  { intros js. induction js as [|j js IH]; [done|].
    by rewrite !bind_cons, fmap_app, IH. }
  rewrite Hb, grouped_Permutation by apply NoDup_sorted_unique.
  assert (Hall : filter (λ r, JobID r ∈ sorted_unique (JobID <$> df)) df = df).
  { apply filter_all. intros r Hr.
    apply elem_of_sorted_unique, list_elem_of_fmap. eauto. }
  by rewrite Hall.
Qed.

Lemma schedule_keys_record_of (val : valuation) (df : DataFrame Z)
    (l : list (Z * Z)) :
  schedule_keys (record_of val df <$> l) = l.
Proof.
  unfold schedule_keys. rewrite <- list_fmap_compose.
  rewrite <- (list_fmap_id l) at 2. apply list_fmap_ext.
  intros i [j t] _. done.
Qed.

Lemma filter_fmap_fill (P : Z → Prop) `{∀ x, Decision (P x)} (h : Z)
    (csv : DataFrame (option Z)) :
  filter (λ r : Row Z, P (JobID r)) (fill_row h <$> csv) =
  fill_row h <$> filter (λ r : Row (option Z), P (JobID r)) csv.
Proof.
  induction csv as [|r csv IH]; [done|].
  rewrite fmap_cons, !filter_cons. simpl JobID.
  destruct (decide (P (JobID r))); [rewrite fmap_cons|]; by rewrite IH.
Qed.

(** The data of an encoded instance. *)
Lemma encoded_fields (csv : DataFrame (option Z)) m df h :
  model (encoded csv) = Some m → jobs_data (encoded csv) = Some df →
  horizon (encoded csv) = Some h →
  m = built_model (machines_of csv) (jobs_of csv) (filled csv) (horizon_of csv) ∧
  df = filled csv ∧ h = horizon_of csv.
Proof. rewrite encoded_eq. simpl. by intros [= <-] [= <-] [= <-]. Qed.

Lemma machine_known (csv : DataFrame (option Z)) (r : Row Z) :
  r ∈ filled csv → MachineID r ∈ machines_of csv.
Proof.
  intros Hr. unfold machines_of. rewrite <- MachineID_filled.
  apply elem_of_sorted_unique, list_elem_of_fmap. eauto.
Qed.

Lemma job_known (csv : DataFrame (option Z)) (r : Row Z) :
  r ∈ filled csv → JobID r ∈ jobs_of csv.
Proof.
  intros Hr. unfold jobs_of. rewrite <- JobID_filled.
  apply elem_of_sorted_unique, list_elem_of_fmap. eauto.
Qed.

(** What [solve] returns on an encoded instance. *)
Lemma solve_encoded (Solve : CpModel → Response) (csv : DataFrame (option Z)) :
  let m := built_model (machines_of csv) (jobs_of csv) (filled csv) (horizon_of csv) in
  solve Solve (encoded csv) =
  (if bool_decide (status (Solve m) = OPTIMAL) ||
      bool_decide (status (Solve m) = FEASIBLE)
   then Ok (record_of (Value (Solve m)) (filled csv) <$>
              visit_order (jobs_of csv) (filled csv))
   else Raise (Exception "No solution found."),
   mkScheduler (Some m) (Some (mkSolver (Some (Solve m)))) (Some (filled csv))
     (Some (machines_of csv)) (Some (jobs_of csv)) (Some (horizon_of csv))
     (Some (all_tasks_of (filled csv)))).
Proof.
  intros m. rewrite encoded_eq. unfold solve.
  cbn [model solver jobs jobs_data all_tasks machines horizon]. fold m.
  destruct (bool_decide (status (Solve m) = OPTIMAL) ||
            bool_decide (status (Solve m) = FEASIBLE)); [|done].
  by rewrite extract_solution_eq.
Qed.

Lemma solved_bool (r : Response) :
  bool_decide (status r = OPTIMAL) || bool_decide (status r = FEASIBLE) = true
  ↔ solved r.
Proof.
  unfold solved. rewrite orb_true_iff, !bool_decide_eq_true. done.
Qed.

(** ** solve before create_model *)

(** C10. On a scheduler whose model is still [None], [solve] raises
    [ValueError]; the result does not depend on the search engine, which is
    not called, and the scheduler is returned as it was. *)
Theorem solve_without_model (Solve : CpModel → Response) (self : JobShopScheduler) :
  model self = None →
  solve Solve self =
  (Raise (ValueError "Model not created. Call create_model() first."), self).
Proof. intros H. unfold solve. by rewrite H. Qed.

Lemma solve_without_model_witness :
  solve engine_A (loaded scenario_A) =
  (Raise (ValueError "Model not created. Call create_model() first."),
   loaded scenario_A).
Proof. apply (solve_without_model engine_A (loaded scenario_A)). reflexivity. Defined.

(** ** Loading no rows *)

(** C6, as the code has it: loading a record stream with no task rows raises
    nothing; it stores an instance with no rows, no machines, no jobs and
    horizon 0. *)
Theorem load_data_empty :
  load_data [] init =
  (Ok (), mkScheduler None None (Some []) (Some []) (Some []) (Some 0) None).
Proof. reflexivity. Qed.

(** C6 as stated fails: loading the empty record stream returns normally. *)
Lemma load_data_empty_no_error :
  ¬ ∃ e, (load_data [] init).1 = Raise e.
Proof. intros [e H]. discriminate H. Qed.

(** ** Status of the search and the result of solve *)

(** C7. On an encoded instance, [solve] raises [Exception('No solution
    found.')] exactly when the status is neither OPTIMAL nor FEASIBLE, and
    then returns no schedule; otherwise it returns a schedule whose keys are
    the keys of the rows, each row once. *)
Theorem solve_status (Solve : CpModel → Response) (csv : DataFrame (option Z))
    (m : CpModel) (df : DataFrame Z) :
  model (encoded csv) = Some m → jobs_data (encoded csv) = Some df →
  ((solve Solve (encoded csv)).1 = Raise (Exception "No solution found.")
     ↔ ¬ solved (Solve m)) ∧
  (¬ solved (Solve m) → ∀ schedule, (solve Solve (encoded csv)).1 ≠ Ok schedule) ∧
  (solved (Solve m) →
     ∃ schedule, (solve Solve (encoded csv)).1 = Ok schedule ∧
       schedule_keys schedule ≡ₚ key <$> df ∧
       length schedule = length csv).
Proof.
  intros Hm Hdf. rewrite encoded_eq in Hm, Hdf. simpl in Hm, Hdf.
  injection Hm as <-. injection Hdf as <-.
  rewrite solve_encoded. cbn [fst].
  set (m := built_model _ _ _ _).
  destruct (bool_decide (status (Solve m) = OPTIMAL) ||
            bool_decide (status (Solve m) = FEASIBLE)) eqn:Hb.
  - apply solved_bool in Hb. split; [|split].
    + split; [done|]. intros Hn. by destruct Hn.
    + intros Hn. by destruct Hn.
    + intros _. eexists. split; [done|].
      rewrite schedule_keys_record_of. unfold jobs_of.
      rewrite <- JobID_filled. split; [apply visit_order_Permutation|].
      rewrite length_fmap, visit_order_Permutation, length_fmap.
      unfold filled. apply length_fmap.
  - assert (Hn : ¬ solved (Solve m)).
    { intros Hs. apply solved_bool in Hs. congruence. }
    split; [|split]; [done|done|done].
Qed.

Lemma solve_status_witness :
  ((solve engine_none (encoded scenario_A)).1 = Raise (Exception "No solution found.")
     ↔ ¬ solved (engine_none (built_model [1; 2] [1; 2] (filled scenario_A) 11))) ∧
  (¬ solved (engine_none (built_model [1; 2] [1; 2] (filled scenario_A) 11)) →
     ∀ schedule, (solve engine_none (encoded scenario_A)).1 ≠ Ok schedule) ∧
  (solved (engine_none (built_model [1; 2] [1; 2] (filled scenario_A) 11)) →
     ∃ schedule, (solve engine_none (encoded scenario_A)).1 = Ok schedule ∧
       schedule_keys schedule ≡ₚ key <$> filled scenario_A ∧
       length schedule = length scenario_A).
Proof.
  apply (solve_status engine_none scenario_A
           (built_model [1; 2] [1; 2] (filled scenario_A) 11) (filled scenario_A));
    vm_compute; reflexivity.
Defined.

(** ** Bounds *)

(** The start and end a returned record reports are the values of the
    variables of a row with the record's key. *)
Lemma record_of_row (val : valuation) (df : DataFrame Z) (js : list Z)
    (x : ScheduledTask) :
  x ∈ record_of val df <$> visit_order js df →
  ∃ i r, df !! i = Some r ∧ key r = (s_JobID x, s_TaskID x) ∧
    all_tasks_of df !!! key r = task_vars_of (i, r) ∧
    s_MachineID x = MachineID r ∧
    s_Start x = val (start_var i) ∧ s_End x = val (end_var i) ∧
    s_Duration x =
      default 0 (iloc0 (Duration <$> filter (λ r', key r' = key r) df)).
Proof.
  intros (jt & -> & Hjt)%list_elem_of_fmap.
  apply elem_of_visit_order in Hjt as (_ & r0 & Hr0 & <-).
  destruct (all_tasks_lookup df r0 Hr0) as (i & r & Hi & Hk & _ & Htv).
  exists i, r. unfold record_of. cbn [s_JobID s_TaskID s_MachineID s_Start s_End s_Duration].
  rewrite Htv, Hk. simpl.
  repeat split; try done.
  f_equal. f_equal. f_equal. apply list_filter_iff. intros r'.
  unfold key. split; [intros [-> ->]; done|intros [= -> ->]; done].
Qed.

Lemma first_with_key (df : DataFrame Z) (i : nat) (r : Row Z) :
  NoDup (key <$> df) → df !! i = Some r →
  iloc0 (Duration <$> filter (λ r', key r' = key r) df) = Some (Duration r).
Proof.
  intros Hnd Hi.
  assert (Hin : r ∈ filter (λ r', key r' = key r) df).
  { apply list_elem_of_filter. split; [done|]. apply list_elem_of_lookup. eauto. }
  destruct (filter (λ r', key r' = key r) df) as [|r' l] eqn:Hf;
    [by apply elem_of_nil in Hin|].
  simpl. f_equal.
  assert (Hr' : r' ∈ filter (λ r', key r' = key r) df) by (rewrite Hf; left).
  apply list_elem_of_filter in Hr' as [Hk Hr'].
  apply list_elem_of_lookup in Hr' as [i' Hi'].
  assert (i' = i) as ->.
  { eapply NoDup_lookup; [exact Hnd| |].
    - rewrite list_lookup_fmap, Hi'. simpl. by rewrite Hk.
    - by rewrite list_lookup_fmap, Hi. }
  congruence.
Qed.

(** C5. In every feasible assignment of the encoded model, each task starts
    at or after 0, ends at or before the horizon, and ends exactly its
    duration after it starts; the horizon is the sum of all durations. Hence
    every record [solve] returns has [0 ≤ Start] and [End ≤ horizon], and
    [End − Start = Duration] when keys identify tasks. *)
Theorem bounds_hold (csv : DataFrame (option Z)) (m : CpModel)
    (df : DataFrame Z) (h : Z) (val : valuation) :
  model (encoded csv) = Some m → jobs_data (encoded csv) = Some df →
  horizon (encoded csv) = Some h → satisfies val m = true →
  h = sum (Duration <$> csv) ∧
  (∀ i r, df !! i = Some r →
     0 ≤ val (start_var i) ∧ val (end_var i) ≤ h ∧
     val (end_var i) - val (start_var i) = Duration r) ∧
  (∀ Solve schedule x,
     Value (Solve m) = val →
     (solve Solve (encoded csv)).1 = Ok schedule → x ∈ schedule →
     0 ≤ s_Start x ∧ s_End x ≤ h ∧
     (NoDup (key <$> df) → s_End x - s_Start x = s_Duration x)).
Proof.
  intros Hm Hdf Hh Hsat.
  destruct (encoded_fields csv m df h Hm Hdf Hh) as (-> & -> & ->).
  split; [done|]. split.
  - intros i r Hi.
    destruct (sat_task _ _ _ _ _ Hsat i r Hi) as (Hs & He & Hd & _). lia.
  - intros Solve schedule x Hval Hsolve Hx.
    rewrite solve_encoded in Hsolve. cbn [fst] in Hsolve.
    destruct (_ || _); [|done]. injection Hsolve as <-. rewrite Hval in Hx.
    apply record_of_row in Hx as (i & r & Hi & Hk & _ & _ & -> & -> & Hdur).
    destruct (sat_task _ _ _ _ _ Hsat i r Hi) as (Hs & He & Hd & _).
    split; [lia|]. split; [lia|].
    intros Hnd. rewrite Hdur, (first_with_key _ i r) by done. simpl. lia.
Qed.

Lemma bounds_hold_witness :
  11 = sum (Duration <$> scenario_A) ∧
  (∀ i r, filled scenario_A !! i = Some r →
     0 ≤ schedule_A (start_var i) ∧ schedule_A (end_var i) ≤ 11 ∧
     schedule_A (end_var i) - schedule_A (start_var i) = Duration r) ∧
  (∀ Solve schedule x,
     Value (Solve (built_model [1; 2] [1; 2] (filled scenario_A) 11)) = schedule_A →
     (solve Solve (encoded scenario_A)).1 = Ok schedule → x ∈ schedule →
     0 ≤ s_Start x ∧ s_End x ≤ 11 ∧
     (NoDup (key <$> filled scenario_A) → s_End x - s_Start x = s_Duration x)).
Proof.
  apply (bounds_hold scenario_A
           (built_model [1; 2] [1; 2] (filled scenario_A) 11)
           (filled scenario_A) 11 schedule_A);
    vm_compute; reflexivity.
Defined.

(** ** No overlap on a machine *)

(** C2. In every feasible assignment of the encoded model, two different
    tasks on the same machine share no instant of their [[start, end)]
    intervals. *)
Theorem machines_never_overlap (csv : DataFrame (option Z)) (m : CpModel)
    (df : DataFrame Z) (val : valuation) (i j : nat) (ri rj : Row Z) (t : Z) :
  model (encoded csv) = Some m → jobs_data (encoded csv) = Some df →
  satisfies val m = true →
  df !! i = Some ri → df !! j = Some rj → i ≠ j →
  MachineID ri = MachineID rj →
  ¬ (val (start_var i) ≤ t < val (end_var i) ∧
     val (start_var j) ≤ t < val (end_var j)).
Proof.
  intros Hm Hdf Hsat Hi Hj Hne Hmach.
  rewrite encoded_eq in Hm, Hdf. simpl in Hm, Hdf.
  injection Hm as <-. injection Hdf as <-.
  assert (Hknown : MachineID ri ∈ machines_of csv).
  { apply machine_known, list_elem_of_lookup. eauto. }
  pose proof (sat_no_overlap _ _ _ _ _ Hsat _ Hknown) as Hno.
  apply (disjoint_no_common_instant val (interval_of (i, ri)) (interval_of (j, rj))).
  eapply no_overlap_pairwise; [exact Hno| | |].
  - apply list_elem_of_fmap. exists (i, ri). split; [done|].
    apply list_elem_of_filter. split; [done|]. by apply elem_of_iterrows.
  - apply list_elem_of_fmap. exists (j, rj). split; [done|].
    apply list_elem_of_filter. split; [done|]. by apply elem_of_iterrows.
  - unfold interval_of. simpl. congruence.
Qed.

Lemma machines_never_overlap_witness :
  ¬ (schedule_A (start_var 0) ≤ 3 < schedule_A (end_var 0) ∧
     schedule_A (start_var 3) ≤ 3 < schedule_A (end_var 3)).
Proof.
  apply (machines_never_overlap scenario_A
           (built_model [1; 2] [1; 2] (filled scenario_A) 11)
           (filled scenario_A) schedule_A 0%nat 3%nat
           (mkRow 1 1 1 3 11) (mkRow 2 2 1 4 11) 3);
    first [vm_compute; reflexivity | lia].
Defined.

(** ** Defaulted deadlines *)

(** C8. A row whose deadline is absent is stored with the horizon (the sum
    of all durations) as its deadline; and a job whose deadline (the one of
    its first row) was absent has tardiness 0 in every feasible assignment
    of the encoded model. *)
Theorem defaulted_deadline (csv : DataFrame (option Z)) (m : CpModel)
    (df : DataFrame Z) (h : Z) (val : valuation) :
  model (encoded csv) = Some m → jobs_data (encoded csv) = Some df →
  horizon (encoded csv) = Some h →
  h = sum (Duration <$> csv) ∧
  (∀ i r0, csv !! i = Some r0 → Deadline r0 = None →
     ∃ r, df !! i = Some r ∧ Deadline r = h) ∧
  (satisfies val m = true →
   ∀ job r0, head (rows_of_job csv job) = Some r0 → Deadline r0 = None →
     val (tardiness_var job) = 0).
Proof.
  intros Hm Hdf Hh.
  destruct (encoded_fields csv m df h Hm Hdf Hh) as (-> & -> & ->).
  split; [done|]. split.
  - intros i r0 Hi Hd. exists (fill_row (horizon_of csv) r0). split.
    + apply filled_lookup. eauto.
    + simpl. by rewrite Hd.
  - intros Hsat job r0 Hhead Hd.
    assert (Hjob : job ∈ jobs_of csv).
    { apply head_Some_elem_of in Hhead.
      apply list_elem_of_filter in Hhead as [<- Hr0].
      apply elem_of_sorted_unique, list_elem_of_fmap. eauto. }
    assert (Hdl : job_deadline (filled csv) job = Some (horizon_of csv)).
    { pose proof (filter_fmap_fill (λ j, j = job) (horizon_of csv) csv) as Hf.
      cbv beta in Hf. unfold job_deadline, rows_of_job, filled. rewrite Hf.
      unfold rows_of_job in Hhead.
      apply head_Some in Hhead as [l ->]. simpl. by rewrite Hd. }
    rewrite (sat_tardiness _ _ _ _ _ Hsat job Hjob), Hdl. simpl.
    pose proof (sat_job_end_domain _ _ _ _ _ Hsat job Hjob). lia.
Qed.

Lemma defaulted_deadline_witness :
  11 = sum (Duration <$> scenario_A) ∧
  (∀ i r0, scenario_A !! i = Some r0 → Deadline r0 = None →
     ∃ r, filled scenario_A !! i = Some r ∧ Deadline r = 11) ∧
  (satisfies schedule_A (built_model [1; 2] [1; 2] (filled scenario_A) 11) = true →
   ∀ job r0, head (rows_of_job scenario_A job) = Some r0 → Deadline r0 = None →
     schedule_A (tardiness_var job) = 0).
Proof.
  apply (defaulted_deadline scenario_A
           (built_model [1; 2] [1; 2] (filled scenario_A) 11)
           (filled scenario_A) 11 schedule_A);
    vm_compute; reflexivity.
Defined.

(** ** Precedence within a job *)

Lemma sorted_task_ids_spec (df : DataFrame Z) (job : Z) :
  Sorted Z.le (sorted_task_ids df job) ∧
  sorted_task_ids df job ≡ₚ TaskID <$> rows_of_job df job.
Proof.
  unfold sorted_task_ids. split.
  - apply Sorted_merge_sort. intros x y. lia.
  - apply merge_sort_Permutation.
Qed.

(** The constraint the precedence loop adds at position [k] of a job. *)
Lemma precedence_constraint (ms js : list Z) (df : DataFrame Z) (h : Z)
    (val : valuation) (job : Z) (k : nat) (t1 t2 : Z) :
  satisfies val (built_model ms js df h) = true → job ∈ js →
  sorted_task_ids df job !! k = Some t1 →
  sorted_task_ids df job !! S k = Some t2 →
  val (t_end (all_tasks_of df !!! (job, t1))) ≤
  val (t_start (all_tasks_of df !!! (job, t2))).
Proof.
  intros Hsat Hjob H1 H2.
  pose proof (lookup_lt_Some _ _ _ H2) as Hlen.
  assert (Hc : holds val
    (LessOrEqual
       (EVar (t_end (all_tasks_of df !!! (job, sorted_task_ids df job !!! k))))
       (EVar (t_start (all_tasks_of df !!! (job, sorted_task_ids df job !!! S k)))))
    = true).
  { apply (sat_precedence _ _ _ _ _ Hsat job); [done|].
    unfold precedences. apply list_elem_of_fmap. exists k. split; [done|].
    apply elem_of_seq. lia. }
  rewrite (list_lookup_total_correct _ _ _ H1) in Hc.
  rewrite (list_lookup_total_correct _ _ _ H2) in Hc.
  simpl in Hc. by apply bool_decide_eq_true in Hc.
Qed.

(** C4. The task ids of a job are sorted ascending, and for two tasks of the
    job at consecutive positions of this order, every feasible assignment
    of the encoded model ends the first no later than the second starts. *)
Theorem precedence_holds (csv : DataFrame (option Z)) (m : CpModel)
    (df : DataFrame Z) (val : valuation) (job : Z) (k : nat)
    (i1 i2 : nat) (r1 r2 : Row Z) :
  model (encoded csv) = Some m → jobs_data (encoded csv) = Some df →
  satisfies val m = true → NoDup (key <$> df) →
  df !! i1 = Some r1 → df !! i2 = Some r2 →
  JobID r1 = job → JobID r2 = job →
  sorted_task_ids df job !! k = Some (TaskID r1) →
  sorted_task_ids df job !! S k = Some (TaskID r2) →
  Sorted Z.le (sorted_task_ids df job) ∧
  sorted_task_ids df job ≡ₚ TaskID <$> rows_of_job df job ∧
  val (end_var i1) ≤ val (start_var i2).
Proof.
  intros Hm Hdf Hsat Hnd Hi1 Hi2 Hj1 Hj2 Hk1 Hk2.
  rewrite encoded_eq in Hm, Hdf. simpl in Hm, Hdf.
  injection Hm as <-. injection Hdf as <-.
  destruct (sorted_task_ids_spec (filled csv) job) as [Hsorted Hperm].
  split; [done|]. split; [done|].
  assert (Hjob : job ∈ jobs_of csv).
  { rewrite <- Hj1. apply job_known, list_elem_of_lookup. eauto. }
  pose proof (precedence_constraint _ _ _ _ _ job k _ _ Hsat Hjob Hk1 Hk2) as Hle.
  assert (Hkey1 : (job, TaskID r1) = key r1) by (unfold key; by rewrite Hj1).
  assert (Hkey2 : (job, TaskID r2) = key r2) by (unfold key; by rewrite Hj2).
  rewrite Hkey1, Hkey2 in Hle.
  rewrite (all_tasks_lookup_NoDup _ i1 r1), (all_tasks_lookup_NoDup _ i2 r2) in Hle
    by done.
  exact Hle.
Qed.

Lemma precedence_holds_witness :
  Sorted Z.le (sorted_task_ids (filled scenario_A) 2) ∧
  sorted_task_ids (filled scenario_A) 2 ≡ₚ
    TaskID <$> rows_of_job (filled scenario_A) 2 ∧
  schedule_A (end_var 2) ≤ schedule_A (start_var 3).
Proof.
  apply (precedence_holds scenario_A
           (built_model [1; 2] [1; 2] (filled scenario_A) 11)
           (filled scenario_A) schedule_A 2 0%nat 2%nat 3%nat
           (mkRow 2 1 2 2 11) (mkRow 2 2 1 4 11));
    try (vm_compute; reflexivity).
  refine (bool_decide_unpack _ _). vm_compute. exact I.
Defined.

(** ** The objective *)

Lemma eval_sum_expr (val : valuation) (terms : list LinearExpr) :
  eval val (sum_expr terms) = sum (eval val <$> terms).
Proof.
  unfold sum_expr.
  assert (H : ∀ e, eval val (foldl EAdd e terms) =
                   eval val e + sum (eval val <$> terms)).
  { induction terms as [|t terms IH]; intros e.
    - unfold sum. simpl. lia.
    - rewrite fmap_cons, sum_cons. simpl foldl. rewrite IH. simpl. lia. }
  rewrite H. simpl. lia.
Qed.

Section distinct_keys.
Variables (df : DataFrame Z) (val : valuation).
Hypothesis Hnd : NoDup (key <$> df).

Lemma job_ends_values (job : Z) (y : Z) :
  y ∈ eval val <$> job_ends (all_tasks_of df) df job ↔
  y ∈ job_task_ends val df job.
Proof.
  unfold job_ends, job_task_ends. split.
  - intros (e & -> & He)%list_elem_of_fmap.
    apply list_elem_of_fmap in He as (task & -> & Htask).
    apply list_elem_of_fmap in Htask as (r & -> & Hr).
    apply list_elem_of_filter in Hr as [Hj Hr].
    apply list_elem_of_lookup in Hr as [i Hi].
    assert (Hk : (job, TaskID r) = key r) by (unfold key; by rewrite Hj).
    rewrite Hk, (all_tasks_lookup_NoDup df i r) by done. simpl.
    apply list_elem_of_fmap. exists (i, r). split; [done|].
    apply list_elem_of_filter. split; [done|]. by apply elem_of_iterrows.
  - intros ([i r] & -> & Hit)%list_elem_of_fmap.
    apply list_elem_of_filter in Hit as [Hj Hit]. simpl in Hj.
    apply elem_of_iterrows in Hit.
    apply list_elem_of_fmap.
    exists (EVar (t_end (all_tasks_of df !!! (job, TaskID r)))). split.
    + assert (Hk : (job, TaskID r) = key r) by (unfold key; by rewrite Hj).
      rewrite Hk, (all_tasks_lookup_NoDup df i r) by done. done.
    + apply list_elem_of_fmap. exists (TaskID r). split; [done|].
      apply list_elem_of_fmap. exists r. split; [done|].
      apply list_elem_of_filter. split; [done|].
      apply list_elem_of_lookup. eauto.
Qed.

Lemma all_ends_values (y : Z) :
  y ∈ eval val <$> (sorted_unique (JobID <$> df) ≫= job_ends (all_tasks_of df) df) ↔
  y ∈ task_ends val df.
Proof.
  split.
  - intros (e & -> & He)%list_elem_of_fmap.
    apply list_elem_of_bind in He as (job & He & _).
    assert (Hy : eval val e ∈ eval val <$> job_ends (all_tasks_of df) df job)
      by (apply list_elem_of_fmap; eauto).
    apply job_ends_values in Hy. unfold job_task_ends in Hy.
    apply list_elem_of_fmap in Hy as (it & -> & Hit).
    apply list_elem_of_filter in Hit as [_ Hit].
    apply list_elem_of_fmap. eauto.
  - intros ([i r] & -> & Hit)%list_elem_of_fmap. cbn [fst].
    assert (Hy : val (end_var i) ∈ job_task_ends val df (JobID r)).
    { apply list_elem_of_fmap. exists (i, r). split; [done|].
      by apply list_elem_of_filter. }
    apply job_ends_values in Hy.
    apply list_elem_of_fmap in Hy as (e & Heq & He).
    apply list_elem_of_fmap. exists e. split; [done|].
    apply list_elem_of_bind. exists (JobID r). split; [done|].
    apply elem_of_sorted_unique, list_elem_of_fmap. exists r. split; [done|].
    apply elem_of_iterrows in Hit. apply list_elem_of_lookup. eauto.
Qed.

(** The values of the makespan, job-end and tardiness variables, and of
    the objective, in a feasible assignment. *)
Lemma objective_formula (ms : list Z) (h : Z) :
  let js := sorted_unique (JobID <$> df) in
  let m := built_model ms js df h in
  satisfies val m = true →
  val makespan_var = maximum (task_ends val df) ∧
  (∀ job, job ∈ js → val (tardiness_var job) = tardiness val df job) ∧
  objective_value val m =
    val makespan_var + sum (val ∘ tardiness_var <$> js).
Proof.
  intros js m Hsat. split; [|split].
  - pose proof (sat_makespan _ _ _ _ _ Hsat) as Hmax.
    apply max_equality_spec in Hmax as [Hin Hub].
    eapply maximum_ext; [apply all_ends_values|exact Hin|exact Hub].
  - intros job Hjob.
    rewrite (sat_tardiness _ _ _ _ _ Hsat job Hjob). unfold tardiness.
    f_equal. f_equal.
    pose proof (sat_job_end _ _ _ _ _ Hsat job Hjob) as Hmax.
    apply max_equality_spec in Hmax as [Hin Hub].
    eapply maximum_ext; [apply job_ends_values|exact Hin|exact Hub].
  - unfold objective_value, m. cbn [objective built_model].
    rewrite eval_sum_expr, fmap_cons, sum_cons, <- list_fmap_compose. done.
Qed.
End distinct_keys.

(** C1. In every feasible assignment of the encoded model, the minimized
    objective is the makespan (the latest end of any task) plus, for every
    job, its tardiness [max(0, jobEnd − deadline)], each term with weight 1. *)
Theorem objective_is_makespan_plus_tardiness (csv : DataFrame (option Z))
    (m : CpModel) (df : DataFrame Z) (js : list Z) (val : valuation) :
  model (encoded csv) = Some m → jobs_data (encoded csv) = Some df →
  jobs (encoded csv) = Some js →
  satisfies val m = true → NoDup (key <$> df) →
  objective m =
    Some (sum_expr (EVar makespan_var :: (EVar ∘ tardiness_var <$> js))) ∧
  objective_value val m =
    maximum (task_ends val df) + sum (tardiness val df <$> js).
Proof.
  intros Hm Hdf Hjs Hsat Hnd.
  rewrite encoded_eq in Hm, Hdf, Hjs. simpl in Hm, Hdf, Hjs.
  injection Hm as <-. injection Hdf as <-. injection Hjs as <-.
  split; [done|].
  unfold jobs_of in *. rewrite <- JobID_filled in *.
  destruct (objective_formula _ val Hnd _ _ Hsat) as (Hmk & Htard & ->).
  rewrite Hmk. f_equal. f_equal.
  apply list_fmap_ext. intros i job Hjob. simpl.
  apply Htard. by apply list_elem_of_lookup_2 in Hjob.
Qed.

Lemma objective_is_makespan_plus_tardiness_witness :
  objective (built_model [1; 2] [1; 2] (filled scenario_A) 11) =
    Some (sum_expr (EVar makespan_var :: (EVar ∘ tardiness_var <$> [1; 2]))) ∧
  objective_value schedule_A (built_model [1; 2] [1; 2] (filled scenario_A) 11) =
    maximum (task_ends schedule_A (filled scenario_A)) +
    sum (tardiness schedule_A (filled scenario_A) <$> [1; 2]).
Proof.
  apply (objective_is_makespan_plus_tardiness scenario_A
           (built_model [1; 2] [1; 2] (filled scenario_A) 11)
           (filled scenario_A) [1; 2] schedule_A);
    try (vm_compute; reflexivity).
  refine (bool_decide_unpack _ _). vm_compute. exact I.
Defined.

(** ** get_makespan *)

Lemma sum_zero (l : list Z) : (∀ x, x ∈ l → x = 0) → sum l = 0.
Proof.
  induction l as [|x l IH]; intros H; [done|].
  rewrite sum_cons, (H x) by left.
  rewrite IH; [done|]. intros y Hy. apply H. by right.
Qed.

(** When no job is late, [get_makespan] is the latest [End] of the
    returned schedule. *)
Lemma get_makespan_on_time (Solve : CpModel → Response)
    (csv : DataFrame (option Z)) (m : CpModel) (df : DataFrame Z)
    (js : list Z) (schedule : list ScheduledTask) (self' : JobShopScheduler) :
  model (encoded csv) = Some m → jobs_data (encoded csv) = Some df →
  jobs (encoded csv) = Some js →
  NoDup (key <$> df) → sound (Solve m) m →
  solve Solve (encoded csv) = (Ok schedule, self') →
  (∀ job, job ∈ js → tardiness (Value (Solve m)) df job = 0) →
  get_makespan self' = Ok (maximum (s_End <$> schedule)).
Proof.
  intros Hm Hdf Hjs Hnd Hsound Hsolve Hzero.
  rewrite encoded_eq in Hm, Hdf, Hjs. simpl in Hm, Hdf, Hjs.
  injection Hm as <-. injection Hdf as <-. injection Hjs as <-.
  rewrite solve_encoded in Hsolve.
  set (m := built_model _ _ _ _) in *.
  destruct (bool_decide (status (Solve m) = OPTIMAL) ||
            bool_decide (status (Solve m) = FEASIBLE)) eqn:Hb; [|done].
  apply solved_bool in Hb. destruct (Hsound Hb) as [Hsat Hobj].
  injection Hsolve as <- <-.
  unfold get_makespan. cbn [solver response]. f_equal. rewrite Hobj.
  set (val := Value (Solve m)) in *.
  unfold m, jobs_of in Hsat, Hzero |- *. rewrite <- JobID_filled in Hsat, Hzero |- *.
  destruct (objective_formula _ val Hnd _ _ Hsat) as (Hmk & Htard & ->).
  rewrite sum_zero, Z.add_0_r.
  - pose proof (sat_makespan _ _ _ _ _ Hsat) as Hmax.
    apply max_equality_spec in Hmax as [Hin Hub].
    eapply maximum_ext; [|exact Hin|exact Hub].
    intros y. rewrite all_ends_values by done. unfold task_ends. split.
    + intros ([i r] & -> & Hit)%list_elem_of_fmap.
      apply elem_of_iterrows in Hit. cbn [fst].
      apply list_elem_of_fmap. exists (record_of val (filled csv) (key r)). split.
      * unfold record_of. cbn [s_End].
        by rewrite (all_tasks_lookup_NoDup _ i r).
      * apply list_elem_of_fmap. exists (key r). split; [done|].
        apply elem_of_visit_order.
        assert (r ∈ filled csv) by (apply list_elem_of_lookup; eauto).
        split; [|eauto]. apply elem_of_sorted_unique, list_elem_of_fmap. eauto.
    + intros (x & -> & Hx)%list_elem_of_fmap.
      apply record_of_row in Hx as (i & r & Hi & _ & _ & _ & _ & -> & _).
      apply list_elem_of_fmap. exists (i, r). split; [done|].
      by apply elem_of_iterrows.
  - intros x (job & -> & Hjob)%list_elem_of_fmap. unfold compose.
    rewrite Htard by done. by apply Hzero.
Qed.

(** C3 fails on the code: for the single task of duration 5 due at 2, every
    sound engine that solves the model makes [solve] return a schedule whose
    latest [End] is 5, while [get_makespan] then returns 8, the objective
    (makespan 5 plus tardiness 3). *)
Theorem get_makespan_of_late_job (Solve : CpModel → Response) (m : CpModel)
    (schedule : list ScheduledTask) (self' : JobShopScheduler) :
  model (encoded late_job) = Some m → sound (Solve m) m →
  solve Solve (encoded late_job) = (Ok schedule, self') →
  maximum (s_End <$> schedule) = 5 ∧ get_makespan self' = Ok 8.
Proof.
  intros Hm Hsound Hsolve.
  rewrite encoded_eq in Hm. simpl in Hm. injection Hm as <-.
  rewrite solve_encoded in Hsolve.
  set (m := built_model _ _ _ _) in *.
  destruct (bool_decide (status (Solve m) = OPTIMAL) ||
            bool_decide (status (Solve m) = FEASIBLE)) eqn:Hb; [|done].
  apply solved_bool in Hb. destruct (Hsound Hb) as [Hsat Hobj].
  injection Hsolve as <- <-.
  set (val := Value (Solve m)) in *.
  assert (Hnd : NoDup (key <$> filled late_job))
    by (refine (bool_decide_unpack _ _); vm_compute; exact I).
  destruct (sat_task _ _ _ _ _ Hsat 0%nat (mkRow 1 1 1 5 2) eq_refl)
    as (Hs & He & Hd & _).
  change (horizon_of late_job) with 5 in He. simpl in Hd.
  assert (Hend : val (end_var 0) = 5) by lia.
  destruct (objective_formula (filled late_job) val Hnd (machines_of late_job)
              (horizon_of late_job) Hsat) as (Hmk & Htard & Hval).
  assert (Ht : val (tardiness_var 1) = 3).
  { rewrite (Htard 1) by (vm_compute; left).
    unfold tardiness. change (job_task_ends val (filled late_job) 1)
      with [val (end_var 0)].
    change (job_deadline (filled late_job) 1) with (Some 2).
    simpl. lia. }
  change (task_ends val (filled late_job)) with [val (end_var 0)] in Hmk.
  simpl in Hmk.
  split.
  - change (visit_order (jobs_of late_job) (filled late_job)) with [(1, 1)].
    cbn [fmap list_fmap]. unfold record_of. cbn [s_End maximum foldl].
    change (all_tasks_of (filled late_job) !!! (1, 1))
      with (task_vars_of (0%nat, mkRow 1 1 1 5 2)).
    exact Hend.
  - unfold get_makespan. cbn [solver response]. f_equal.
    rewrite Hobj. fold val.
    change (objective_value val m) with
      (objective_value val
         (built_model (machines_of late_job)
            (sorted_unique (JobID <$> filled late_job)) (filled late_job)
            (horizon_of late_job))).
    rewrite Hval.
    change (sorted_unique (JobID <$> filled late_job)) with [1].
    cbn [fmap list_fmap compose]. rewrite sum_cons.
    unfold sum. simpl. lia.
Qed.

Lemma get_makespan_of_late_job_witness :
  maximum (s_End <$> [mkScheduled 1 1 1 0 5 5 2]) = 5 ∧
  get_makespan (solve engine_late (encoded late_job)).2 = Ok 8.
Proof.
  apply (get_makespan_of_late_job engine_late
           (built_model [1] [1] (filled late_job) 5)
           [mkScheduled 1 1 1 0 5 5 2]
           (solve engine_late (encoded late_job)).2).
  - vm_compute; reflexivity.
  - intros _. split; vm_compute; reflexivity.
  - vm_compute; reflexivity.
Defined.

(** ** Utilization *)

Lemma list_to_map_fn_lookup {V} (g : Z → V) (keys : list Z) (k : Z) :
  (list_to_map ((λ k, (k, g k)) <$> keys) : gmap Z V) !! k =
  if decide (k ∈ keys) then Some (g k) else None.
Proof.
  induction keys as [|k' keys IH].
  - rewrite fmap_nil, list_to_map_nil, lookup_empty.
    destruct (decide (k ∈ [])) as [H|]; [by apply elem_of_nil in H|done].
  - rewrite fmap_cons, list_to_map_cons.
    destruct (decide (k' = k)) as [->|Hne].
    + rewrite lookup_insert_eq.
      destruct (decide (k ∈ k :: keys)) as [|H]; [done|].
      exfalso. apply H. left.
    + rewrite lookup_insert_ne, IH by done.
      destruct (decide (k ∈ keys)) as [Hin|Hnin];
        destruct (decide (k ∈ k' :: keys)) as [Hin'|Hnin']; try done.
      * exfalso. apply Hnin'. by right.
      * apply elem_of_cons in Hin' as [?|?]; done.
Qed.

Lemma ratio_bounds (a h : Z) :
  0 ≤ a ≤ h → 0 < h →
  (0 <= inject_Z a / inject_Z h)%Q ∧ (inject_Z a / inject_Z h <= 1)%Q.
Proof.
  intros [Ha Hah] Hh.
  assert (Hh' : (0 < inject_Z h)%Q).
  { change 0%Q with (inject_Z 0). by rewrite <- Zlt_Qlt. }
  split.
  - apply Qle_shift_div_l; [done|]. rewrite Qmult_0_l.
    change 0%Q with (inject_Z 0). by rewrite <- Zle_Qle.
  - apply Qle_shift_div_r; [done|]. rewrite Qmult_1_l. by rewrite <- Zle_Qle.
Qed.

Lemma sum_Permutation (l k : list Z) : l ≡ₚ k → sum l = sum k.
Proof.
  induction 1 as [|x l k _ IH|x y l|l k k' _ IH1 _ IH2];
    rewrite ?sum_cons; [done|lia|lia|congruence].
Qed.

Lemma sum_fmap_ext {A} (f g : A → Z) (l : list A) :
  (∀ x, x ∈ l → f x = g x) → sum (f <$> l) = sum (g <$> l).
Proof.
  intros H. f_equal. apply list_fmap_ext. intros i x Hx.
  apply H. by apply list_elem_of_lookup_2 in Hx.
Qed.

(** The dictionary both utilization functions return, from the keys of the
    grouping and the busy time [F] of each key. *)
Lemma utilization_wf (ms keys : list Z) (F : Z → Z) (h : Z) :
  (∀ k, k ∈ keys ↔ k ∈ ms) → (∀ k, k ∈ keys → 0 ≤ F k ≤ h) → 0 ≤ h →
  well_formed
    (if bool_decide (h = 0) then zero_utilization ms
     else ratios ((λ k, (k, F k)) <$> keys) h) ms h.
Proof.
  intros Hkeys HF Hh. case_bool_decide as Hz.
  - unfold zero_utilization. split; [|split].
    + intros machine. rewrite (list_to_map_fn_lookup (λ _, 0%Q)).
      destruct (decide (machine ∈ ms)); split; try done;
        by intros [q Hq].
    + intros machine q. rewrite (list_to_map_fn_lookup (λ _, 0%Q)).
      destruct (decide (machine ∈ ms)); [|done]. intros [= <-]. done.
    + intros _ machine q. rewrite (list_to_map_fn_lookup (λ _, 0%Q)).
      destruct (decide (machine ∈ ms)); [|done]. by intros [= <-].
  - unfold ratios. rewrite <- list_fmap_compose.
    pose proof (list_to_map_fn_lookup
                  (λ k, (inject_Z (F k) / inject_Z h)%Q) keys) as Hl.
    split; [|split].
    + intros machine. unfold compose. simpl. rewrite Hl, <- Hkeys.
      destruct (decide (machine ∈ keys)); split; try done;
        by intros [q Hq].
    + intros machine q. unfold compose. simpl. rewrite Hl.
      destruct (decide (machine ∈ keys)) as [Hin|]; [|done]. intros [= <-].
      apply ratio_bounds; [by apply HF|lia].
    + done.
Qed.

(** Busy time of a machine over the rows never exceeds the horizon. *)
Lemma machine_duration_bounds (df : DataFrame Z) (machine : Z) :
  (∀ r, r ∈ df → 0 ≤ Duration r) →
  0 ≤ sum (Duration <$> filter (λ r, MachineID r = machine) df)
    ≤ sum (Duration <$> df).
Proof.
  intros Hpos. split.
  - apply sum_nonneg. intros x (r & -> & Hr)%list_elem_of_fmap.
    apply list_elem_of_filter in Hr as [_ Hr]. by apply Hpos.
  - by apply sum_filter_le.
Qed.

Section scheduled.
Variables (csv : DataFrame (option Z)) (val : valuation).
Let df := filled csv.
Let h := horizon_of csv.
Let schedule := record_of val df <$> visit_order (jobs_of csv) df.
Hypothesis Hsat :
  satisfies val (built_model (machines_of csv) (jobs_of csv) df h) = true.
Hypothesis Hnd : NoDup (key <$> df).

Lemma scheduled_length (x : ScheduledTask) :
  x ∈ schedule → 0 ≤ s_End x - s_Start x.
Proof.
  intros (i & r & Hi & _ & _ & _ & -> & -> & _)%record_of_row.
  destruct (sat_task _ _ _ _ _ Hsat i r Hi) as (_ & _ & ? & ?). lia.
Qed.

Lemma scheduled_machines (machine : Z) :
  machine ∈ sorted_unique (s_MachineID <$> schedule) ↔ machine ∈ machines_of csv.
Proof.
  rewrite elem_of_sorted_unique. unfold machines_of.
  rewrite elem_of_sorted_unique, <- MachineID_filled. fold df. split.
  - intros (x & -> & Hx)%list_elem_of_fmap.
    apply record_of_row in Hx as (i & r & Hi & _ & _ & -> & _).
    apply list_elem_of_fmap. exists r. split; [done|].
    apply list_elem_of_lookup. eauto.
  - intros (r & -> & Hr)%list_elem_of_fmap.
    apply list_elem_of_fmap. exists (record_of val df (key r)). split.
    + apply list_elem_of_lookup in Hr as [i Hi].
      unfold record_of. cbn [s_MachineID].
      by rewrite (all_tasks_lookup_NoDup df i r).
    + apply list_elem_of_fmap. exists (key r). split; [done|].
      apply elem_of_visit_order. split; [|eauto].
      by apply job_known.
Qed.

Lemma scheduled_total :
  sum ((λ x, s_End x - s_Start x) <$> schedule) = sum (Duration <$> df).
Proof.
  unfold schedule. rewrite <- list_fmap_compose.
  assert (Hperm : visit_order (jobs_of csv) df ≡ₚ key <$> df).
  { unfold jobs_of. rewrite <- JobID_filled. apply visit_order_Permutation. }
  rewrite (sum_Permutation _ _ (fmap_Permutation _ _ _ Hperm)).
  rewrite <- list_fmap_compose. apply sum_fmap_ext.
  intros r Hr. apply list_elem_of_lookup in Hr as [i Hi].
  unfold compose, record_of. cbn [s_End s_Start].
  rewrite (all_tasks_lookup_NoDup df i r) by done. simpl.
  destruct (sat_task _ _ _ _ _ Hsat i r Hi) as (_ & _ & ? & _). lia.
Qed.

Lemma scheduled_busy_bounds (machine : Z) :
  0 ≤ sum ((λ x, s_End x - s_Start x) <$>
             filter (λ x, s_MachineID x = machine) schedule) ≤ h.
Proof.
  split.
  - apply sum_nonneg. intros y (x & -> & Hx)%list_elem_of_fmap.
    apply list_elem_of_filter in Hx as [_ Hx]. by apply scheduled_length.
  - unfold h, horizon_of. rewrite <- Duration_filled. fold df.
    rewrite <- scheduled_total.
    apply sum_filter_le. intros x Hx. by apply scheduled_length.
Qed.

(** A feasible model has at least one task. *)
Lemma scheduled_nonempty : schedule ≠ [].
Proof.
  pose proof (sat_makespan _ _ _ _ _ Hsat) as Hmax.
  apply max_equality_spec in Hmax as [Hin _].
  apply list_elem_of_fmap in Hin as (e & _ & He).
  apply list_elem_of_bind in He as (job & He & Hjob).
  apply list_elem_of_fmap in He as (task & _ & Htask).
  apply list_elem_of_fmap in Htask as (r & -> & Hr).
  apply list_elem_of_filter in Hr as [Hj Hr].
  assert (Hx : record_of val df (key r) ∈ schedule).
  { apply list_elem_of_fmap. exists (key r). split; [done|].
    apply elem_of_visit_order. split; [|eauto]. by apply job_known. }
  intros Hnil. rewrite Hnil in Hx. by apply elem_of_nil in Hx.
Qed.
End scheduled.

Lemma if_Ok {A} (b : bool) (x y : A) :
  (if b then Ok x else Ok y) = Ok (if b then x else y).
Proof. by destruct b. Qed.

(** C9. For an instance with non-negative durations, the machines are
    listed once each; the raw utilization map is well formed; and for every
    schedule [solve] returns from a feasible assignment (keys identifying
    tasks), so is the utilization map of the schedule: the keys are exactly
    the known machines, every entry is in [[0, 1]], and every entry is 0
    when the horizon is 0. *)
Theorem utilization_well_formed (csv : DataFrame (option Z)) (ms : list Z) (h : Z) :
  machines (loaded csv) = Some ms → horizon (loaded csv) = Some h →
  Forall (λ r, 0 ≤ Duration r) csv →
  NoDup ms ∧
  (∃ before,
     get_initial_machine_utilization (loaded csv) = Ok before ∧
     well_formed before ms h) ∧
  (∀ Solve m df schedule,
     model (encoded csv) = Some m → jobs_data (encoded csv) = Some df →
     NoDup (key <$> df) → satisfies (Value (Solve m)) m = true →
     (solve Solve (encoded csv)).1 = Ok schedule →
     ∃ after,
       get_optimized_machine_utilization (solve Solve (encoded csv)).2 schedule
         = Ok after ∧
       well_formed after ms h).
Proof.
  rewrite loaded_eq. cbn [machines horizon]. intros [= <-] [= <-] Hpos.
  rewrite Forall_forall in Hpos.
  assert (Hpos' : ∀ r, r ∈ filled csv → 0 ≤ Duration r).
  { intros r (r0 & -> & Hr0)%list_elem_of_fmap. by apply Hpos. }
  assert (Hh : 0 ≤ horizon_of csv).
  { apply sum_nonneg. intros x (r & -> & Hr)%list_elem_of_fmap. by apply Hpos. }
  split; [apply NoDup_sorted_unique|]. split.
  - unfold get_initial_machine_utilization. cbn [jobs_data horizon machines].
    rewrite if_Ok. eexists. split; [reflexivity|].
    unfold groupby_sum.
    apply (utilization_wf (machines_of csv)
             (sorted_unique (MachineID <$> filled csv))
             (λ k, sum (Duration <$>
                filter (λ r, MachineID r = k) (filled csv)))); [| |done].
    + intros k. unfold machines_of. by rewrite MachineID_filled.
    + intros k _. unfold horizon_of. rewrite <- Duration_filled.
      by apply machine_duration_bounds.
  - intros Solve m df schedule Hm Hdf Hnd Hsat Hsolve.
    rewrite encoded_eq in Hm, Hdf. simpl in Hm, Hdf.
    injection Hm as <-. injection Hdf as <-.
    rewrite solve_encoded in Hsolve |- *. cbn [fst snd] in Hsolve |- *.
    destruct (_ || _); [|done]. injection Hsolve as <-.
    set (val := Value (Solve _)) in *.
    pose proof (scheduled_nonempty csv val Hsat) as Hne.
    unfold get_optimized_machine_utilization. cbn [horizon machines].
    destruct (record_of val (filled csv) <$>
              visit_order (jobs_of csv) (filled csv)) as [|x l] eqn:Hs; [done|].
    rewrite <- Hs, if_Ok. eexists. split; [reflexivity|].
    unfold groupby_sum.
    apply (utilization_wf (machines_of csv)
      (sorted_unique (s_MachineID <$>
         (record_of val (filled csv) <$> visit_order (jobs_of csv) (filled csv))))
      (λ k, sum ((λ x, s_End x - s_Start x) <$>
         filter (λ x, s_MachineID x = k)
           (record_of val (filled csv) <$>
              visit_order (jobs_of csv) (filled csv))))); [| |done].
    + intros k. by apply scheduled_machines.
    + intros k _. by apply scheduled_busy_bounds.
Qed.

Lemma utilization_well_formed_witness :
  NoDup [1; 2] ∧
  (∃ before,
     get_initial_machine_utilization (loaded scenario_A) = Ok before ∧
     well_formed before [1; 2] 11) ∧
  (∀ Solve m df schedule,
     model (encoded scenario_A) = Some m → jobs_data (encoded scenario_A) = Some df →
     NoDup (key <$> df) → satisfies (Value (Solve m)) m = true →
     (solve Solve (encoded scenario_A)).1 = Ok schedule →
     ∃ after,
       get_optimized_machine_utilization (solve Solve (encoded scenario_A)).2 schedule
         = Ok after ∧
       well_formed after [1; 2] 11).
Proof.
  apply (utilization_well_formed scenario_A [1; 2] 11).
  - vm_compute; reflexivity.
  - vm_compute; reflexivity.
  - refine (bool_decide_unpack _ _). vm_compute. exact I.
Defined.

(** * Further properties of the scheduler *)

(** ** The identifiers load_data stores *)

Lemma StronglySorted_lt_of_le (l : list Z) :
  StronglySorted Z.le l → NoDup l → StronglySorted Z.lt l.
Proof.
  induction 1 as [|x l Hs IH Hall]; intros Hnd; [constructor|].
  apply NoDup_cons in Hnd as [Hx Hnd].
  constructor; [by apply IH|].
  rewrite Forall_forall in Hall |- *. intros y Hy.
  specialize (Hall y Hy). assert (x ≠ y) by (intros ->; done). lia.
Qed.

Lemma sorted_unique_strictly_sorted (l : list Z) :
  StronglySorted Z.lt (sorted_unique l).
Proof.
  apply StronglySorted_lt_of_le; [|apply NoDup_sorted_unique].
  unfold sorted_unique. apply StronglySorted_merge_sort.
  - intros x y z. lia.
  - intros x y. lia.
Qed.

(** X1. Whatever the scheduler held, after [load_data] the machine and job
    lists are strictly ascending and hold exactly the machine ids and the
    job ids that occur in the rows. *)
Theorem load_data_ids (csv : DataFrame (option Z)) (self : JobShopScheduler) :
  ∃ ms js,
    machines (load_data csv self).2 = Some ms ∧
    jobs (load_data csv self).2 = Some js ∧
    StronglySorted Z.lt ms ∧ StronglySorted Z.lt js ∧
    (∀ x, x ∈ ms ↔ ∃ r, r ∈ csv ∧ MachineID r = x) ∧
    (∀ x, x ∈ js ↔ ∃ r, r ∈ csv ∧ JobID r = x).
Proof.
  exists (sorted_unique (MachineID <$> csv)), (sorted_unique (JobID <$> csv)).
  split; [done|]. split; [done|].
  split; [apply sorted_unique_strictly_sorted|].
  split; [apply sorted_unique_strictly_sorted|].
  split; intros x; rewrite elem_of_sorted_unique, list_elem_of_fmap;
    split; intros (r & H1 & H2); eauto.
Qed.

(** ** Guards that do not hold *)

(** X2. On a scheduler that holds no data (no [load_data] yet),
    [create_model] raises
    [TypeError], yet it leaves a model and a solver behind: a following
    [solve] passes its "model not created" guard, for every engine. *)
Theorem create_model_unloaded (self : JobShopScheduler) (Solve : CpModel → Response) :
  machines self = None → jobs self = None →
  (create_model self).1 = Raise (TypeError "'NoneType' object is not iterable") ∧
  model (create_model self).2 = Some empty_model ∧
  solver (create_model self).2 = Some fresh_solver ∧
  (solve Solve (create_model self).2).1 ≠
    Raise (ValueError "Model not created. Call create_model() first.").
Proof.
  intros Hm Hj. unfold create_model. cbn [machines jobs jobs_data horizon].
  rewrite Hm. cbn [fst snd model solver]. repeat split.
  unfold solve. cbn [model solver jobs jobs_data all_tasks]. rewrite Hj.
  by destruct (_ || _).
Qed.

Lemma create_model_unloaded_witness :
  (create_model init).1 = Raise (TypeError "'NoneType' object is not iterable") ∧
  model (create_model init).2 = Some empty_model ∧
  solver (create_model init).2 = Some fresh_solver ∧
  (solve engine_A (create_model init).2).1 ≠
    Raise (ValueError "Model not created. Call create_model() first.").
Proof. apply (create_model_unloaded init engine_A); reflexivity. Defined.

(** X3. The "problem not solved" guard of [get_makespan] tests the solver
    object, which [create_model] creates: it fires on a fresh and on a
    loaded scheduler, but no longer once [create_model] has run, although
    [solve] has not. After [solve], whatever the status (also when [solve]
    raised), [get_makespan] returns the objective value the engine
    reported. *)
Theorem get_makespan_guard (csv : DataFrame (option Z)) (Solve : CpModel → Response)
    (m : CpModel) :
  model (encoded csv) = Some m →
  get_makespan init = Raise (ValueError "Problem not solved. Call solve() first.") ∧
  get_makespan (loaded csv) =
    Raise (ValueError "Problem not solved. Call solve() first.") ∧
  get_makespan (encoded csv) ≠
    Raise (ValueError "Problem not solved. Call solve() first.") ∧
  get_makespan (solve Solve (encoded csv)).2 = Ok (ObjectiveValue (Solve m)).
Proof.
  intros Hm. rewrite encoded_eq in Hm. simpl in Hm. injection Hm as <-.
  split; [done|]. split; [done|]. split.
  - by rewrite encoded_eq.
  - by rewrite solve_encoded.
Qed.

Lemma get_makespan_guard_witness :
  get_makespan init = Raise (ValueError "Problem not solved. Call solve() first.") ∧
  get_makespan (loaded scenario_A) =
    Raise (ValueError "Problem not solved. Call solve() first.") ∧
  get_makespan (encoded scenario_A) ≠
    Raise (ValueError "Problem not solved. Call solve() first.") ∧
  get_makespan (solve engine_none (encoded scenario_A)).2 =
    Ok (ObjectiveValue
          (engine_none (built_model [1; 2] [1; 2] (filled scenario_A) 11))).
Proof.
  apply (get_makespan_guard scenario_A engine_none
           (built_model [1; 2] [1; 2] (filled scenario_A) 11)).
  vm_compute; reflexivity.
Defined.

(** ** The empty instance *)

(** X4. For a record stream without rows the model asks for the maximum of
    no end variable: no assignment is feasible, and with every sound engine
    [solve] raises "No solution found.". *)
Theorem empty_instance_unsolvable (Solve : CpModel → Response) (m : CpModel) :
  model (encoded []) = Some m →
  (∀ val, satisfies val m = false) ∧
  (sound (Solve m) m →
   (solve Solve (encoded [])).1 = Raise (Exception "No solution found.")).
Proof.
  intros Hm. rewrite encoded_eq in Hm. simpl in Hm. injection Hm as <-.
  assert (Hunsat : ∀ val,
    satisfies val (built_model (machines_of []) (jobs_of []) (filled [])
                     (horizon_of [])) = false).
  { intros val. apply not_true_is_false. intros Hsat.
    by apply (scheduled_nonempty [] val Hsat). }
  split; [done|]. intros Hsound.
  rewrite solve_encoded. cbn [fst].
  destruct (_ || _) eqn:Hb; [|done].
  apply solved_bool in Hb. destruct (Hsound Hb) as [Hsat _].
  by rewrite Hunsat in Hsat.
Qed.

Lemma empty_instance_unsolvable_witness :
  (∀ val, satisfies val (built_model [] [] [] 0) = false) ∧
  (sound (engine_none (built_model [] [] [] 0)) (built_model [] [] [] 0) →
   (solve engine_none (encoded [])).1 = Raise (Exception "No solution found.")).
Proof.
  apply (empty_instance_unsolvable engine_none (built_model [] [] [] 0)).
  vm_compute; reflexivity.
Defined.

(** ** Deadlines and the horizon *)

(** X5. The tardiness variable has the domain [[0, horizon]], so a deadline
    binds: in every feasible assignment each task ends no later than its
    job's deadline plus the horizon; an instance with a task longer than
    that has no feasible assignment. *)
Theorem deadline_plus_horizon (csv : DataFrame (option Z)) (m : CpModel)
    (df : DataFrame Z) (h : Z) (val : valuation) (i : nat) (r : Row Z) (d : Z) :
  model (encoded csv) = Some m → jobs_data (encoded csv) = Some df →
  horizon (encoded csv) = Some h →
  satisfies val m = true → NoDup (key <$> df) →
  df !! i = Some r → job_deadline df (JobID r) = Some d →
  val (end_var i) ≤ d + h ∧ Duration r ≤ d + h.
Proof.
  intros Hm Hdf Hh Hsat Hnd Hi Hd.
  destruct (encoded_fields csv m df h Hm Hdf Hh) as (-> & -> & ->).
  assert (Hjob : JobID r ∈ jobs_of csv).
  { apply job_known, list_elem_of_lookup. eauto. }
  assert (Hdom : 0 ≤ val (tardiness_var (JobID r)) ≤ horizon_of csv).
  { apply (sat_variable _ _ _ _ _ Hsat
             (tardiness_var (JobID r), (0, horizon_of csv))).
    simpl. apply elem_of_app. right. right. apply list_elem_of_bind.
    exists (JobID r). split; [right; left|done]. }
  rewrite (sat_tardiness _ _ _ _ _ Hsat _ Hjob), Hd in Hdom. simpl in Hdom.
  pose proof (sat_job_end _ _ _ _ _ Hsat _ Hjob) as Hmax.
  apply max_equality_spec in Hmax as [_ Hub].
  assert (Hle : val (end_var i) ≤ val (job_end_var (JobID r))).
  { apply Hub, job_ends_values; [done|].
    apply list_elem_of_fmap. exists (i, r). split; [done|].
    apply list_elem_of_filter. split; [done|]. by apply elem_of_iterrows. }
  destruct (sat_task _ _ _ _ _ Hsat i r Hi) as (Hs & _ & Hdur & _).
  lia.
Qed.

Lemma deadline_plus_horizon_witness :
  schedule_late (end_var 0) ≤ 2 + 5 ∧ Duration (mkRow 1 1 1 5 2 : Row Z) ≤ 2 + 5.
Proof.
  apply (deadline_plus_horizon late_job (built_model [1] [1] (filled late_job) 5)
           (filled late_job) 5 schedule_late 0%nat (mkRow 1 1 1 5 2) 2);
    try (vm_compute; reflexivity).
  refine (bool_decide_unpack _ _). vm_compute. exact I.
Defined.

(** ** What get_makespan returns *)

(** The latest [End] of the returned schedule is the value of the makespan
    variable. *)
Lemma schedule_latest_end (csv : DataFrame (option Z)) (val : valuation) :
  satisfies val (built_model (machines_of csv) (jobs_of csv) (filled csv)
                   (horizon_of csv)) = true →
  NoDup (key <$> filled csv) →
  val makespan_var =
  maximum (s_End <$> (record_of val (filled csv) <$>
                        visit_order (jobs_of csv) (filled csv))).
Proof.
  intros Hsat Hnd.
  pose proof (sat_makespan _ _ _ _ _ Hsat) as Hmax.
  apply max_equality_spec in Hmax as [Hin Hub].
  eapply maximum_ext; [|exact Hin|exact Hub].
  intros y. unfold jobs_of. rewrite <- JobID_filled.
  rewrite all_ends_values by done. unfold task_ends. split.
  - intros ([i r] & -> & Hit)%list_elem_of_fmap.
    apply elem_of_iterrows in Hit. cbn [fst].
    apply list_elem_of_fmap. exists (record_of val (filled csv) (key r)). split.
    + unfold record_of. cbn [s_End]. by rewrite (all_tasks_lookup_NoDup _ i r).
    + apply list_elem_of_fmap. exists (key r). split; [done|].
      apply elem_of_visit_order.
      assert (r ∈ filled csv) by (apply list_elem_of_lookup; eauto).
      split; [|eauto]. apply elem_of_sorted_unique, list_elem_of_fmap. eauto.
  - intros (x & -> & Hx)%list_elem_of_fmap.
    apply record_of_row in Hx as (i & r & Hi & _ & _ & _ & _ & -> & _).
    apply list_elem_of_fmap. exists (i, r). split; [done|].
    by apply elem_of_iterrows.
Qed.

(** X6. After a successful [solve] with a sound engine (keys identifying
    tasks), [get_makespan] returns the latest [End] of the schedule plus
    the tardiness of every job: it never undershoots the completion time,
    and exceeds it by exactly the total tardiness. *)
Theorem get_makespan_value (Solve : CpModel → Response)
    (csv : DataFrame (option Z)) (m : CpModel) (df : DataFrame Z)
    (js : list Z) (schedule : list ScheduledTask) (self' : JobShopScheduler) :
  model (encoded csv) = Some m → jobs_data (encoded csv) = Some df →
  jobs (encoded csv) = Some js →
  NoDup (key <$> df) → sound (Solve m) m →
  solve Solve (encoded csv) = (Ok schedule, self') →
  get_makespan self' =
    Ok (maximum (s_End <$> schedule) +
        sum (tardiness (Value (Solve m)) df <$> js)) ∧
  0 ≤ sum (tardiness (Value (Solve m)) df <$> js).
Proof.
  intros Hm Hdf Hjs Hnd Hsound Hsolve.
  rewrite encoded_eq in Hm, Hdf, Hjs. simpl in Hm, Hdf, Hjs.
  injection Hm as <-. injection Hdf as <-. injection Hjs as <-.
  rewrite solve_encoded in Hsolve.
  set (m := built_model _ _ _ _) in *.
  destruct (bool_decide (status (Solve m) = OPTIMAL) ||
            bool_decide (status (Solve m) = FEASIBLE)) eqn:Hb; [|done].
  apply solved_bool in Hb. destruct (Hsound Hb) as [Hsat Hobj].
  injection Hsolve as <- <-.
  set (val := Value (Solve m)) in *. split.
  - unfold get_makespan. cbn [solver response]. f_equal. rewrite Hobj.
    rewrite <- (schedule_latest_end csv val Hsat Hnd).
    pose proof Hsat as Hsat'.
    unfold m, jobs_of in Hsat' |- *. rewrite <- JobID_filled in Hsat' |- *.
    destruct (objective_formula _ val Hnd _ _ Hsat') as (_ & Htard & ->).
    f_equal. f_equal. apply list_fmap_ext. intros i job Hjob. simpl.
    apply Htard. by apply list_elem_of_lookup_2 in Hjob.
  - apply sum_nonneg. intros x (job & -> & _)%list_elem_of_fmap.
    unfold tardiness. lia.
Qed.

Lemma get_makespan_value_witness :
  get_makespan (solve engine_late (encoded late_job)).2 =
    Ok (maximum (s_End <$> [mkScheduled 1 1 1 0 5 5 2]) +
        sum (tardiness
               (Value (engine_late (built_model [1] [1] (filled late_job) 5)))
               (filled late_job) <$> [1])) ∧
  0 ≤ sum (tardiness
             (Value (engine_late (built_model [1] [1] (filled late_job) 5)))
             (filled late_job) <$> [1]).
Proof.
  apply (get_makespan_value engine_late late_job
           (built_model [1] [1] (filled late_job) 5) (filled late_job) [1]
           [mkScheduled 1 1 1 0 5 5 2]
           (solve engine_late (encoded late_job)).2);
    try (vm_compute; reflexivity).
  - refine (bool_decide_unpack _ _). vm_compute. exact I.
  - intros _. split; vm_compute; reflexivity.
Defined.

(** ** Repeating steps *)


(** X8. [create_model] rebuilds the model from the data and replaces the
    solver: run again, also after [solve], it leads back to the scheduler
    as first encoded, so the response of the earlier [solve] is gone. *)
Theorem create_model_again (Solve : CpModel → Response) (csv : DataFrame (option Z)) :
  create_model (encoded csv) = (Ok (), encoded csv) ∧
  create_model (solve Solve (encoded csv)).2 = (Ok (), encoded csv).
Proof.
  assert (Hjobs : ∀ j, j ∈ jobs_of csv → is_Some (job_deadline (filled csv) j)).
  { intros j Hj. apply job_deadline_is_Some. by rewrite JobID_filled. }
  split.
  - rewrite encoded_eq. unfold create_model.
    cbn [machines jobs jobs_data horizon model solver all_tasks].
    by rewrite build_model_eq.
  - rewrite solve_encoded, encoded_eq. unfold create_model.
    cbn [snd machines jobs jobs_data horizon model solver all_tasks].
    by rewrite build_model_eq.
Qed.

(** ** Order and content of the returned schedule *)

Lemma StronglySorted_const (j : Z) (l : list Z) :
  (∀ x, x ∈ l → x = j) → StronglySorted Z.le l.
Proof.
  induction l as [|x l IH]; intros H; [constructor|].
  constructor.
  - apply IH. intros y Hy. apply H. by right.
  - apply Forall_forall. intros y Hy.
    rewrite (H x) by left. rewrite (H y) by (by right). lia.
Qed.

Lemma visit_order_jobs_sorted (js : list Z) (df : DataFrame Z) :
  StronglySorted Z.lt js → StronglySorted Z.le ((visit_order js df).*1).
Proof.
  unfold visit_order. induction 1 as [|j js Hs IH Hall]; [constructor|].
  rewrite bind_cons, fmap_app. apply StronglySorted_app_2; [| |done].
  - intros x1 x2 Hx1 Hx2.
    apply list_elem_of_fmap in Hx1 as ([j1 t1] & -> & H1).
    apply list_elem_of_fmap in H1 as (ta & [= -> ->] & _).
    apply list_elem_of_fmap in Hx2 as ([j2 t2] & -> & H2).
    apply list_elem_of_bind in H2 as (j' & H2 & Hj').
    apply list_elem_of_fmap in H2 as (tb & [= -> ->] & _).
    rewrite Forall_forall in Hall. specialize (Hall _ Hj'). simpl. lia.
  - apply (StronglySorted_const j). intros x Hx.
    apply list_elem_of_fmap in Hx as ([j1 t1] & -> & H1).
    by apply list_elem_of_fmap in H1 as (t & [= -> ->] & _).
Qed.

Lemma visit_order_of_job (js : list Z) (df : DataFrame Z) (job : Z) :
  NoDup js → job ∈ js →
  filter (λ jt, jt.1 = job) (visit_order js df) =
  pair job <$> (TaskID <$> rows_of_job df job).
Proof.
  unfold visit_order. induction 1 as [|j js Hj Hnd IH]; intros Hin;
    [by apply elem_of_nil in Hin|].
  rewrite bind_cons, filter_app.
  assert (Hnone : ∀ j' (js' : list Z), j' ∉ js' →
    filter (λ jt : Z * Z, jt.1 = j')
      (js' ≫= λ job, pair job <$> (TaskID <$> rows_of_job df job)) = []).
  { intros j' js' Hj'. induction js' as [|a js' IHjs]; [done|].
    rewrite bind_cons, filter_app, IHjs, app_nil_r
      by (intros ?; apply Hj'; by right).
    assert (Hne : a ≠ j') by (intros ->; apply Hj'; left).
    induction (TaskID <$> rows_of_job df a) as [|t l IHl]; [done|].
    rewrite fmap_cons, filter_cons_False by done. done. }
  destruct (decide (j = job)) as [->|Hne].
  - rewrite (Hnone job js Hj), app_nil_r.
    apply filter_all. intros jt Hjt.
    by apply list_elem_of_fmap in Hjt as (t & -> & _).
  - apply elem_of_cons in Hin as [Heq|Hin]; [congruence|].
    rewrite IH by done.
    assert (Hempty : filter (λ jt : Z * Z, jt.1 = job)
                       (pair j <$> (TaskID <$> rows_of_job df j)) = []).
    { induction (TaskID <$> rows_of_job df j) as [|t l IHl]; [done|].
      rewrite fmap_cons, filter_cons_False by done. done. }
    by rewrite Hempty.
Qed.

(** X9. The schedule [solve] returns is ordered by ascending [JobID], and
    within a job its records follow the rows of the job in file order. *)
Theorem schedule_order (Solve : CpModel → Response) (csv : DataFrame (option Z))
    (df : DataFrame Z) (schedule : list ScheduledTask) (job : Z) :
  jobs_data (encoded csv) = Some df →
  (solve Solve (encoded csv)).1 = Ok schedule →
  StronglySorted Z.le (s_JobID <$> schedule) ∧
  (s_TaskID <$> filter (λ x, s_JobID x = job) schedule) =
    TaskID <$> rows_of_job df job.
Proof.
  intros Hdf Hsolve. rewrite encoded_eq in Hdf. simpl in Hdf. injection Hdf as <-.
  rewrite solve_encoded in Hsolve. cbn [fst] in Hsolve.
  destruct (_ || _); [|done]. injection Hsolve as <-.
  set (val := Value _).
  assert (Hj : ∀ l : list (Z * Z),
    s_JobID <$> (record_of val (filled csv) <$> l) = l.*1).
  { intros l. rewrite <- list_fmap_compose. by apply list_fmap_ext. }
  assert (Hf : ∀ l : list (Z * Z),
    s_TaskID <$> filter (λ x, s_JobID x = job) (record_of val (filled csv) <$> l)
    = (filter (λ jt, jt.1 = job) l).*2).
  { induction l as [|jt l IH]; [done|].
    rewrite fmap_cons, !filter_cons. cbn [record_of s_JobID].
    destruct (decide (jt.1 = job)); [rewrite !fmap_cons|]; by rewrite IH. }
  split.
  - rewrite Hj. apply visit_order_jobs_sorted, sorted_unique_strictly_sorted.
  - rewrite Hf.
    destruct (decide (job ∈ jobs_of csv)) as [Hin|Hnin].
    + rewrite visit_order_of_job by (done || apply NoDup_sorted_unique).
      rewrite <- list_fmap_compose. apply list_fmap_id.
    + assert (Hnil : rows_of_job (filled csv) job = []).
      { unfold rows_of_job.
        destruct (filter (λ r, JobID r = job) (filled csv)) as [|r l] eqn:Hfl;
          [done|].
        assert (Hr : r ∈ filter (λ r, JobID r = job) (filled csv))
          by (rewrite Hfl; left).
        apply list_elem_of_filter in Hr as [<- Hr].
        exfalso. apply Hnin. by apply job_known. }
      rewrite Hnil.
      destruct (filter (λ jt : Z * Z, jt.1 = job)
                  (visit_order (jobs_of csv) (filled csv))) as [|jt l] eqn:Hfl;
        [done|].
      assert (Hjt : jt ∈ filter (λ jt : Z * Z, jt.1 = job)
                      (visit_order (jobs_of csv) (filled csv)))
        by (rewrite Hfl; left).
      apply list_elem_of_filter in Hjt as [<- Hjt].
      apply elem_of_visit_order in Hjt as [Hjt _]. done.
Qed.

Lemma schedule_order_witness :
  StronglySorted Z.le
    (s_JobID <$> [mkScheduled 1 1 1 0 3 3 11; mkScheduled 1 2 2 3 5 2 11;
                  mkScheduled 2 1 2 0 2 2 11; mkScheduled 2 2 1 3 7 4 11]) ∧
  (s_TaskID <$> filter (λ x, s_JobID x = 2)
     [mkScheduled 1 1 1 0 3 3 11; mkScheduled 1 2 2 3 5 2 11;
      mkScheduled 2 1 2 0 2 2 11; mkScheduled 2 2 1 3 7 4 11]) =
    TaskID <$> rows_of_job (filled scenario_A) 2.
Proof.
  apply (schedule_order engine_A scenario_A (filled scenario_A)
           [mkScheduled 1 1 1 0 3 3 11; mkScheduled 1 2 2 3 5 2 11;
            mkScheduled 2 1 2 0 2 2 11; mkScheduled 2 2 1 3 7 4 11] 2);
    vm_compute; reflexivity.
Defined.

(** With distinct keys, the record built for the key of a row carries the
    row's machine and duration and the values of the row's variables. *)
Lemma record_of_key (val : valuation) (df : DataFrame Z) (i : nat) (r : Row Z) :
  NoDup (key <$> df) → df !! i = Some r →
  record_of val df (key r) =
  mkScheduled (JobID r) (TaskID r) (MachineID r)
    (val (start_var i)) (val (end_var i)) (Duration r)
    (default 0 (job_deadline df (JobID r))).
Proof.
  intros Hnd Hi. unfold record_of.
  rewrite (all_tasks_lookup_NoDup df i r) by done. cbn [fst snd key].
  f_equal.
  assert (Hf : filter (λ r', JobID r' = JobID r ∧ TaskID r' = TaskID r) df =
               filter (λ r', key r' = key r) df).
  { apply list_filter_iff. intros r'. unfold key.
    split; [intros [-> ->]; done|intros [= -> ->]; done]. }
  by rewrite Hf, (first_with_key df i r).
Qed.

(** X10. With distinct keys the returned schedule is the input again: its
    records, read as (job, task, machine, duration), are the rows in another
    order, each [End] is [Start] plus the duration, and the [Deadline] of a
    record is the deadline of the first row of its job. *)
Theorem schedule_round_trip (Solve : CpModel → Response)
    (csv : DataFrame (option Z)) (m : CpModel) (df : DataFrame Z)
    (schedule : list ScheduledTask) :
  model (encoded csv) = Some m → jobs_data (encoded csv) = Some df →
  NoDup (key <$> df) → satisfies (Value (Solve m)) m = true →
  (solve Solve (encoded csv)).1 = Ok schedule →
  (λ x, mkRow (s_JobID x) (s_TaskID x) (s_MachineID x) (s_Duration x) ()) <$>
    schedule ≡ₚ
  (λ r, mkRow (JobID r) (TaskID r) (MachineID r) (Duration r) ()) <$> df ∧
  ∀ x, x ∈ schedule →
    s_End x = s_Start x + s_Duration x ∧
    job_deadline df (s_JobID x) = Some (s_Deadline x).
Proof.
  intros Hm Hdf Hnd Hsat Hsolve.
  rewrite encoded_eq in Hm, Hdf. simpl in Hm, Hdf.
  injection Hm as <-. injection Hdf as <-.
  rewrite solve_encoded in Hsolve. cbn [fst] in Hsolve.
  destruct (_ || _); [|done]. injection Hsolve as <-.
  set (val := Value _) in *.
  assert (Hperm : visit_order (jobs_of csv) (filled csv) ≡ₚ key <$> filled csv).
  { unfold jobs_of. rewrite <- JobID_filled. apply visit_order_Permutation. }
  split.
  - rewrite Hperm, <- !list_fmap_compose. 
    assert (Heq : ∀ l : list (Row Z), (∀ r, r ∈ l → r ∈ filled csv) →
      (λ x, mkRow (s_JobID x) (s_TaskID x) (s_MachineID x) (s_Duration x) ())
        ∘ record_of val (filled csv) ∘ key <$> l =
      (λ r, mkRow (JobID r) (TaskID r) (MachineID r) (Duration r) ()) <$> l).
    { intros l Hl. apply list_fmap_ext. intros i r Hr.
      apply list_elem_of_lookup_2, Hl, list_elem_of_lookup in Hr as [i' Hi'].
      unfold compose. by rewrite (record_of_key val _ i' r). }
    by rewrite Heq.
  - intros x (jt & -> & Hjt)%list_elem_of_fmap.
    apply elem_of_visit_order in Hjt as (_ & r & Hr & <-).
    apply list_elem_of_lookup in Hr as [i Hi].
    rewrite (record_of_key val _ i r) by done.
    cbn [s_End s_Start s_Duration s_JobID s_Deadline].
    destruct (sat_task _ _ _ _ _ Hsat i r Hi) as (_ & _ & Hd & _).
    split; [lia|].
    destruct (job_deadline_is_Some (filled csv) (JobID r)) as [d Hd'].
    { apply elem_of_sorted_unique, list_elem_of_fmap. exists r. split; [done|].
      apply list_elem_of_lookup. eauto. }
    by rewrite Hd'.
Qed.

Lemma schedule_round_trip_witness :
  (λ x, mkRow (s_JobID x) (s_TaskID x) (s_MachineID x) (s_Duration x) ()) <$>
    [mkScheduled 1 1 1 0 3 3 11; mkScheduled 1 2 2 3 5 2 11;
     mkScheduled 2 1 2 0 2 2 11; mkScheduled 2 2 1 3 7 4 11] ≡ₚ
  (λ r, mkRow (JobID r) (TaskID r) (MachineID r) (Duration r) ()) <$>
    filled scenario_A ∧
  ∀ x, x ∈ [mkScheduled 1 1 1 0 3 3 11; mkScheduled 1 2 2 3 5 2 11;
            mkScheduled 2 1 2 0 2 2 11; mkScheduled 2 2 1 3 7 4 11] →
    s_End x = s_Start x + s_Duration x ∧
    job_deadline (filled scenario_A) (s_JobID x) = Some (s_Deadline x).
Proof.
  apply (schedule_round_trip engine_A scenario_A
           (built_model [1; 2] [1; 2] (filled scenario_A) 11)
           (filled scenario_A));
    try (vm_compute; reflexivity).
  refine (bool_decide_unpack _ _). vm_compute. exact I.
Defined.

(** ** Utilization before and after *)

Lemma sum_filter_fmap {A B} (f : B → Z) (f' : A → Z) (g : A → B)
    (P : B → Prop) (P' : A → Prop)
    `{∀ x, Decision (P x)} `{∀ x, Decision (P' x)} (l : list A) :
  (∀ r, r ∈ l → (P (g r) ↔ P' r) ∧ f (g r) = f' r) →
  sum (f <$> filter P (g <$> l)) = sum (f' <$> filter P' l).
Proof.
  induction l as [|r l IH]; intros Hl; [done|].
  destruct (Hl r) as [HP Hf]; [left|].
  assert (IH' : sum (f <$> filter P (g <$> l)) = sum (f' <$> filter P' l))
    by (apply IH; intros r' Hr'; apply Hl; by right).
  rewrite fmap_cons, !filter_cons.
  destruct (decide (P (g r))) as [Hp|Hp]; destruct (decide (P' r)) as [Hp'|Hp'];
    try (exfalso; tauto).
  - rewrite !fmap_cons, !sum_cons. lia.
  - done.
Qed.

(** The busy time of a machine in the schedule is its busy time in the rows. *)
Lemma scheduled_busy_time (csv : DataFrame (option Z)) (val : valuation)
    (machine : Z) :
  satisfies val (built_model (machines_of csv) (jobs_of csv) (filled csv)
                   (horizon_of csv)) = true →
  NoDup (key <$> filled csv) →
  sum ((λ x, s_End x - s_Start x) <$>
         filter (λ x, s_MachineID x = machine)
           (record_of val (filled csv) <$> visit_order (jobs_of csv) (filled csv)))
  = sum (Duration <$> filter (λ r, MachineID r = machine) (filled csv)).
Proof.
  intros Hsat Hnd.
  assert (Hperm : visit_order (jobs_of csv) (filled csv) ≡ₚ key <$> filled csv).
  { unfold jobs_of. rewrite <- JobID_filled. apply visit_order_Permutation. }
  rewrite (sum_Permutation _ _
    (fmap_Permutation _ _ _
       (filter_Permutation _ _ _ (fmap_Permutation _ _ _ Hperm)))).
  rewrite <- list_fmap_compose.
  apply sum_filter_fmap. intros r Hr.
  apply list_elem_of_lookup in Hr as [i Hi].
  unfold compose. rewrite (record_of_key val _ i r) by done.
  cbn [s_MachineID s_End s_Start]. split; [done|].
  destruct (sat_task _ _ _ _ _ Hsat i r Hi) as (_ & _ & Hd & _). lia.
Qed.

Lemma ratios_lookup (keys : list Z) (F : Z → Z) (h k : Z) :
  ratios ((λ k, (k, F k)) <$> keys) h !! k =
  if decide (k ∈ keys) then Some (inject_Z (F k) / inject_Z h)%Q else None.
Proof.
  unfold ratios. rewrite <- list_fmap_compose.
  apply (list_to_map_fn_lookup (λ k, (inject_Z (F k) / inject_Z h)%Q)).
Qed.

Lemma optimized_eq_initial (csv : DataFrame (option Z)) (val : valuation)
    (self : JobShopScheduler) :
  satisfies val (built_model (machines_of csv) (jobs_of csv) (filled csv)
                   (horizon_of csv)) = true →
  NoDup (key <$> filled csv) →
  jobs_data self = Some (filled csv) → machines self = Some (machines_of csv) →
  horizon self = Some (horizon_of csv) →
  get_optimized_machine_utilization self
    (record_of val (filled csv) <$> visit_order (jobs_of csv) (filled csv)) =
  get_initial_machine_utilization self.
Proof.
  intros Hsat Hnd Hdf Hms Hh.
  pose proof (scheduled_nonempty csv val Hsat) as Hne.
  unfold get_optimized_machine_utilization, get_initial_machine_utilization.
  rewrite Hdf, Hms, Hh.
  destruct (record_of val (filled csv) <$>
            visit_order (jobs_of csv) (filled csv)) as [|x l] eqn:Hs; [done|].
  rewrite <- Hs. case_bool_decide as Hz; [done|]. f_equal.
  unfold groupby_sum. apply map_eq. intros k. rewrite !ratios_lookup.
  rewrite (scheduled_busy_time csv val k Hsat Hnd).
  destruct (decide (k ∈ sorted_unique (s_MachineID <$>
              (record_of val (filled csv) <$>
                 visit_order (jobs_of csv) (filled csv))))) as [Hin|Hnin];
    destruct (decide (k ∈ sorted_unique (MachineID <$> filled csv)))
      as [Hin'|Hnin']; try done.
  - exfalso. apply Hnin'. rewrite MachineID_filled.
    by apply (scheduled_machines csv val Hnd).
  - exfalso. apply Hnin. apply (scheduled_machines csv val Hnd).
    unfold machines_of. by rewrite <- MachineID_filled.
Qed.

(** X11. With distinct keys, the utilization map computed from a schedule
    that [solve] returned from a feasible assignment is the map computed
    from the raw durations: the optimization never changes a machine's
    utilization. *)
Theorem utilization_unchanged (Solve : CpModel → Response)
    (csv : DataFrame (option Z)) (m : CpModel) (df : DataFrame Z)
    (schedule : list ScheduledTask) :
  model (encoded csv) = Some m → jobs_data (encoded csv) = Some df →
  NoDup (key <$> df) → satisfies (Value (Solve m)) m = true →
  (solve Solve (encoded csv)).1 = Ok schedule →
  get_optimized_machine_utilization (solve Solve (encoded csv)).2 schedule =
  get_initial_machine_utilization (solve Solve (encoded csv)).2.
Proof.
  intros Hm Hdf Hnd Hsat Hsolve.
  rewrite encoded_eq in Hm, Hdf. simpl in Hm, Hdf.
  injection Hm as <-. injection Hdf as <-.
  rewrite solve_encoded in Hsolve |- *. cbn [fst snd] in Hsolve |- *.
  destruct (_ || _); [|done]. injection Hsolve as <-.
  by apply optimized_eq_initial.
Qed.

Lemma utilization_unchanged_witness :
  get_optimized_machine_utilization (solve engine_A (encoded scenario_A)).2
    [mkScheduled 1 1 1 0 3 3 11; mkScheduled 1 2 2 3 5 2 11;
     mkScheduled 2 1 2 0 2 2 11; mkScheduled 2 2 1 3 7 4 11] =
  get_initial_machine_utilization (solve engine_A (encoded scenario_A)).2.
Proof.
  apply (utilization_unchanged engine_A scenario_A
           (built_model [1; 2] [1; 2] (filled scenario_A) 11)
           (filled scenario_A));
    try (vm_compute; reflexivity).
  refine (bool_decide_unpack _ _). vm_compute. exact I.
Defined.

(** ** The raw utilizations add up to one *)







(** ** The optimizer run *)

Lemma create_model_loaded (csv : DataFrame (option Z)) :
  create_model (loaded csv) = (Ok (), encoded csv).
Proof.
  rewrite encoded_eq, loaded_eq. unfold create_model.
  cbn [machines jobs jobs_data horizon model solver all_tasks].
  rewrite build_model_eq; [done|].
  intros j Hj. apply job_deadline_is_Some. by rewrite JobID_filled.
Qed.

Lemma improvement_percent_same (a : Q) : (improvement_percent a a == 0)%Q.
Proof.
  unfold improvement_percent. destruct (Qlt_le_dec 0 a); [|reflexivity].
  unfold Qdiv. ring.
Qed.

(** X13. The optimizer run of the application, on an engine that is sound
    for the model: when the engine finds no solution the run ends with "No
    solution found."; when it finds one, no later step fails, the makespan
    shown is the engine's objective value, and (keys identifying tasks) the
    utilization map after optimization is the map before, so the
    improvement shown is 0. *)
Theorem run_optimizer_outcome (Solve : CpModel → Response)
    (csv : DataFrame (option Z)) (m : CpModel) (df : DataFrame Z) :
  model (encoded csv) = Some m → jobs_data (encoded csv) = Some df →
  sound (Solve m) m →
  (¬ solved (Solve m) →
   run_optimizer Solve csv = Raise (Exception "No solution found.")) ∧
  (solved (Solve m) →
   ∃ out, run_optimizer Solve csv = Ok out ∧
     makespan out = ObjectiveValue (Solve m) ∧
     (NoDup (key <$> df) →
      after_util out = before_util out ∧
      (util_improvement_percent out == 0)%Q)).
Proof.
  intros Hm Hdf Hsound.
  rewrite encoded_eq in Hm, Hdf. simpl in Hm, Hdf.
  injection Hm as <-. injection Hdf as <-.
  unfold run_optimizer.
  change (load_data csv init) with (Ok (), loaded csv). cbv iota beta.
  rewrite create_model_loaded, solve_encoded.
  set (m := built_model _ _ _ _) in *.
  destruct (bool_decide (status (Solve m) = OPTIMAL) ||
            bool_decide (status (Solve m) = FEASIBLE)) eqn:Hb.
  - apply solved_bool in Hb. split; [done|]. intros _.
    destruct (Hsound Hb) as [Hsat _].
    set (val := Value (Solve m)) in *.
    pose proof (scheduled_nonempty csv val Hsat) as Hne.
    unfold get_makespan, get_initial_machine_utilization,
      get_optimized_machine_utilization.
    cbn [solver response jobs_data horizon machines].
    destruct (record_of val (filled csv) <$>
              visit_order (jobs_of csv) (filled csv)) as [|x l] eqn:Hs; [done|].
    rewrite <- Hs, !if_Ok. eexists. split; [reflexivity|].
    cbn [makespan after_util before_util util_improvement_percent].
    split; [done|]. intros Hnd.
    pose proof (optimized_eq_initial csv val
      (mkScheduler (Some m) (Some (mkSolver (Some (Solve m))))
         (Some (filled csv)) (Some (machines_of csv)) (Some (jobs_of csv))
         (Some (horizon_of csv)) (Some (all_tasks_of (filled csv))))
      Hsat Hnd eq_refl eq_refl eq_refl) as Heq.
    unfold get_initial_machine_utilization,
      get_optimized_machine_utilization in Heq.
    cbn [jobs_data horizon machines] in Heq.
    rewrite Hs in Heq. rewrite <- Hs in Heq. rewrite !if_Ok in Heq.
    injection Heq as Heq. rewrite Heq.
    split; [done|]. apply improvement_percent_same.
  - assert (Hn : ¬ solved (Solve m)).
    { intros Hs. apply solved_bool in Hs. congruence. }
    split; [done|]. intros Hs. by destruct Hn.
Qed.

Lemma run_optimizer_outcome_witness :
  (¬ solved (engine_A (built_model [1; 2] [1; 2] (filled scenario_A) 11)) →
   run_optimizer engine_A scenario_A = Raise (Exception "No solution found.")) ∧
  (solved (engine_A (built_model [1; 2] [1; 2] (filled scenario_A) 11)) →
   ∃ out, run_optimizer engine_A scenario_A = Ok out ∧
     makespan out =
       ObjectiveValue (engine_A (built_model [1; 2] [1; 2] (filled scenario_A) 11)) ∧
     (NoDup (key <$> filled scenario_A) →
      after_util out = before_util out ∧
      (util_improvement_percent out == 0)%Q)).
Proof.
  apply (run_optimizer_outcome engine_A scenario_A
           (built_model [1; 2] [1; 2] (filled scenario_A) 11)
           (filled scenario_A)).
  - vm_compute; reflexivity.
  - vm_compute; reflexivity.
  - intros _. split; vm_compute; reflexivity.
Defined.

(** ** Lower bounds on the makespan *)

(** Tasks that follow one another: the last one ends no earlier than the
    start bound plus the sum of all sizes. *)
Lemma chain_bound (S E D : Z → Z) (l : list Z) (t0 b : Z) :
  (∀ t, t ∈ t0 :: l → E t = S t + D t) → b ≤ S t0 →
  (∀ k t1 t2, (t0 :: l) !! k = Some t1 → (t0 :: l) !! Datatypes.S k = Some t2 →
     E t1 ≤ S t2) →
  ∃ t, t ∈ t0 :: l ∧ b + sum (D <$> t0 :: l) ≤ E t.
Proof.
  revert t0 b. induction l as [|t1 l IH]; intros t0 b Hint Hb Hchain.
  - exists t0. split; [left|]. rewrite (Hint t0) by left.
    rewrite fmap_cons, sum_cons. unfold sum. simpl. lia.
  - destruct (IH t1 (b + D t0)) as (t & Ht & Hle).
    + intros t Ht. apply Hint. by right.
    + pose proof (Hchain 0%nat t0 t1 eq_refl eq_refl) as H01.
      rewrite (Hint t0) in H01 by left. lia.
    + intros k ta tb Ha Hb'. by apply (Hchain (Datatypes.S k)).
    + exists t. split; [by right|].
      rewrite fmap_cons, sum_cons. lia.
Qed.

(** X14. In every feasible assignment (keys identifying tasks) a job ends
    no earlier than the sum of the durations of its tasks, and the makespan
    is at least the end of every job. *)
Theorem makespan_covers_job (csv : DataFrame (option Z)) (m : CpModel)
    (df : DataFrame Z) (js : list Z) (val : valuation) (job : Z) :
  model (encoded csv) = Some m → jobs_data (encoded csv) = Some df →
  jobs (encoded csv) = Some js →
  satisfies val m = true → NoDup (key <$> df) → job ∈ js →
  sum (Duration <$> rows_of_job df job) ≤ val (job_end_var job) ∧
  val (job_end_var job) ≤ val makespan_var.
Proof.
  intros Hm Hdf Hjs Hsat Hnd Hjob.
  rewrite encoded_eq in Hm, Hdf, Hjs. simpl in Hm, Hdf, Hjs.
  injection Hm as <-. injection Hdf as <-. injection Hjs as <-.
  set (df := filled csv) in *. set (tasks := all_tasks_of df).
  pose proof (sat_job_end _ _ _ _ _ Hsat job Hjob) as Hje.
  apply max_equality_spec in Hje as [Hje_in Hje_ub].
  pose proof (sat_makespan _ _ _ _ _ Hsat) as Hmk.
  apply max_equality_spec in Hmk as [_ Hmk_ub].
  split.
  - (* every task id of the job is the id of a row of the job *)
    assert (Hrow : ∀ t, t ∈ sorted_task_ids df job →
      ∃ i r, df !! i = Some r ∧ JobID r = job ∧ TaskID r = t ∧
        tasks !!! (job, t) = task_vars_of (i, r)).
    { intros t Ht. unfold sorted_task_ids in Ht.
      rewrite (merge_sort_Permutation Z.le) in Ht.
      apply list_elem_of_fmap in Ht as (r & -> & Hr).
      apply list_elem_of_filter in Hr as [Hj Hr].
      apply list_elem_of_lookup in Hr as [i Hi].
      exists i, r. repeat split; try done.
      assert (Hk : (job, TaskID r) = key r) by (unfold key; by rewrite Hj).
      rewrite Hk. by apply all_tasks_lookup_NoDup. }
    set (S := λ t, val (t_start (tasks !!! (job, t)))).
    set (E := λ t, val (t_end (tasks !!! (job, t)))).
    set (D := λ t, iv_size (t_interval (tasks !!! (job, t)))).
    assert (Hsum : sum (D <$> sorted_task_ids df job) =
                   sum (Duration <$> rows_of_job df job)).
    { rewrite (sum_Permutation _ _ (fmap_Permutation D _ _
                 (proj2 (sorted_task_ids_spec df job)))).
      rewrite <- list_fmap_compose. apply sum_fmap_ext. intros r Hr.
      apply list_elem_of_filter in Hr as [Hj Hr].
      apply list_elem_of_lookup in Hr as [i Hi].
      unfold compose, D.
      assert (Hk : (job, TaskID r) = key r) by (unfold key; by rewrite Hj).
      rewrite Hk. fold df in Hnd. unfold tasks.
      by rewrite (all_tasks_lookup_NoDup df i r). }
    rewrite <- Hsum.
    destruct (sorted_task_ids df job) as [|t0 l] eqn:Hids.
    + unfold sum. simpl.
      pose proof (sat_job_end_domain _ _ _ _ _ Hsat job Hjob). lia.
    + destruct (chain_bound S E D l t0 0) as (t & Ht & Hle).
      * intros t Ht. destruct (Hrow t Ht) as (i & r & Hi & _ & _ & Htv).
        unfold S, E, D. rewrite Htv. simpl.
        destruct (sat_task _ _ _ _ _ Hsat i r Hi) as (_ & _ & Hd & _). lia.
      * destruct (Hrow t0) as (i & r & Hi & _ & _ & Htv); [left|].
        unfold S. rewrite Htv. simpl.
        destruct (sat_task _ _ _ _ _ Hsat i r Hi) as (Hs & _). lia.
      * intros k t1 t2 H1 H2. rewrite <- Hids in H1, H2.
        apply (precedence_constraint _ _ _ _ _ job k t1 t2 Hsat Hjob H1 H2).
      * assert (HE : E t ≤ val (job_end_var job)).
        { apply Hje_ub. apply list_elem_of_fmap.
          exists (EVar (t_end (tasks !!! (job, t)))). split; [done|].
          unfold job_ends. apply list_elem_of_fmap. exists t. split; [done|].
          rewrite <- Hids in Ht. unfold sorted_task_ids in Ht.
          by rewrite (merge_sort_Permutation Z.le) in Ht. }
        lia.
  - apply Hmk_ub.
    apply list_elem_of_fmap in Hje_in as (e & Heq & He).
    simpl in Heq. rewrite Heq.
    apply list_elem_of_fmap. exists e. split; [done|].
    apply list_elem_of_bind. eauto.
Qed.

Lemma makespan_covers_job_witness :
  sum (Duration <$> rows_of_job (filled scenario_A) 2) ≤ schedule_A (job_end_var 2) ∧
  schedule_A (job_end_var 2) ≤ schedule_A makespan_var.
Proof.
  apply (makespan_covers_job scenario_A
           (built_model [1; 2] [1; 2] (filled scenario_A) 11)
           (filled scenario_A) [1; 2] schedule_A 2);
    try (vm_compute; reflexivity).
  - refine (bool_decide_unpack _ _). vm_compute. exact I.
  - refine (bool_decide_unpack _ _). vm_compute. exact I.
Defined.

Lemma no_overlap_filter (val : valuation) (P : IntervalVar → Prop)
    `{∀ a, Decision (P a)} (ivs : list IntervalVar) :
  no_overlap val ivs = true → no_overlap val (filter P ivs) = true.
Proof.
  induction ivs as [|a ivs IH]; [done|].
  simpl. intros [Ha Hrest]%andb_true_iff.
  rewrite filter_cons. destruct (decide (P a)); [|by apply IH].
  simpl. apply andb_true_iff. split; [|by apply IH].
  apply forallb_elem_of. intros b [_ Hb]%list_elem_of_filter.
  rewrite forallb_elem_of in Ha. by apply Ha.
Qed.

Lemma sum_filter_split {A} (f : A → Z) (P : A → Prop) `{∀ x, Decision (P x)}
    (l : list A) :
  sum (f <$> l) = sum (f <$> filter P l) + sum (f <$> filter (λ x, ¬ P x) l).
Proof.
  induction l as [|x l IH]; [done|].
  rewrite !filter_cons, fmap_cons, sum_cons.
  destruct (decide (P x)) as [Hp|Hp].
  - rewrite decide_False by tauto. rewrite fmap_cons, sum_cons. lia.
  - rewrite decide_True by done. rewrite fmap_cons, sum_cons. lia.
Qed.

(** Intervals that do not overlap and lie in [[lo, hi]] have a total size
    of at most [hi - lo]. *)
Lemma no_overlap_load (val : valuation) (n : nat) :
  ∀ (ivs : list IntervalVar) (lo hi : Z),
    (length ivs ≤ n)%nat → no_overlap val ivs = true → lo ≤ hi →
    (∀ a, a ∈ ivs →
       lo ≤ val (iv_start a) ∧ val (iv_end a) ≤ hi ∧
       val (iv_start a) + iv_size a = val (iv_end a) ∧ 0 ≤ iv_size a) →
    sum (iv_size <$> ivs) ≤ hi - lo.
Proof.
  induction n as [|n IH]; intros ivs lo hi Hlen Hno Hlohi Hin.
  - destruct ivs; [|simpl in Hlen; lia]. unfold sum. simpl. lia.
  - destruct ivs as [|a rest]; [unfold sum; simpl; lia|].
    simpl in Hlen, Hno. apply andb_true_iff in Hno as [Ha Hrest].
    rewrite forallb_elem_of in Ha.
    destruct (Hin a) as (Ha1 & Ha2 & Ha3 & Ha4); [left|].
    set (P := λ b, val (iv_end b) ≤ val (iv_start a)).
    rewrite fmap_cons, sum_cons, (sum_filter_split iv_size P rest).
    assert (Hbefore : sum (iv_size <$> filter P rest) ≤ val (iv_start a) - lo).
    { apply IH; [|by apply no_overlap_filter|done|].
      - pose proof (length_filter P rest). lia.
      - intros b [Hb Hb']%list_elem_of_filter.
        destruct (Hin b) as (? & ? & ? & ?); [by right|]. unfold P in Hb.
        repeat split; lia. }
    assert (Hafter : sum (iv_size <$> filter (λ b, ¬ P b) rest)
                     ≤ hi - val (iv_end a)).
    { apply IH; [|by apply no_overlap_filter|done|].
      - pose proof (length_filter (λ b, ¬ P b) rest). lia.
      - intros b [Hb Hb']%list_elem_of_filter.
        destruct (Hin b) as (? & ? & ? & ?); [by right|]. unfold P in Hb.
        specialize (Ha b Hb'). unfold disjoint in Ha.
        apply orb_true_iff in Ha as [Hd|Hd]; apply bool_decide_eq_true in Hd;
          repeat split; lia. }
    lia.
Qed.

Lemma filter_iterrows {D} (P : Row D → Prop) `{∀ r, Decision (P r)}
    (df : DataFrame D) :
  (filter (λ it, P it.2) (iterrows df)).*2 = filter P df.
Proof.
  unfold iterrows.
  assert (Hgen : ∀ (g : nat → Row D → nat * Row D) (l : list (Row D)),
    (∀ i r, (g i r).2 = r) →
    (filter (λ it : nat * Row D, P it.2) (imap g l)).*2 = filter P l).
  { intros g l. revert g. induction l as [|r l IH]; intros g Hg; [done|].
    rewrite imap_cons, !filter_cons, Hg.
    destruct (decide (P r)); [rewrite fmap_cons, Hg|];
      rewrite (IH (g ∘ S)); try done; intros i r'; apply Hg. }
  by apply Hgen.
Qed.

(** X15. In every feasible assignment (keys identifying tasks) the makespan
    is at least the total duration of the tasks of any machine. *)
Theorem makespan_covers_machine (csv : DataFrame (option Z)) (m : CpModel)
    (df : DataFrame Z) (ms : list Z) (val : valuation) (machine : Z) :
  model (encoded csv) = Some m → jobs_data (encoded csv) = Some df →
  machines (encoded csv) = Some ms →
  satisfies val m = true → NoDup (key <$> df) → machine ∈ ms →
  sum (Duration <$> filter (λ r, MachineID r = machine) df) ≤ val makespan_var.
Proof.
  intros Hm Hdf Hms Hsat Hnd Hmach.
  rewrite encoded_eq in Hm, Hdf, Hms. simpl in Hm, Hdf, Hms.
  injection Hm as <-. injection Hdf as <-. injection Hms as <-.
  pose proof (sat_no_overlap _ _ _ _ _ Hsat machine Hmach) as Hno.
  pose proof (sat_makespan _ _ _ _ _ Hsat) as Hmk.
  apply max_equality_spec in Hmk as [_ Hub].
  assert (Hdom : 0 ≤ val makespan_var).
  { apply (sat_variable _ _ _ _ _ Hsat (makespan_var, (0, horizon_of csv))).
    simpl. apply elem_of_app. right. left. }
  set (ivs := interval_of <$>
                filter (λ it, MachineID it.2 = machine) (iterrows (filled csv))) in *.
  assert (Hsize : sum (iv_size <$> ivs) =
    sum (Duration <$> filter (λ r, MachineID r = machine) (filled csv))).
  { unfold ivs. rewrite <- list_fmap_compose.
    rewrite <- (filter_iterrows (λ r, MachineID r = machine)).
    rewrite <- list_fmap_compose. done. }
  rewrite <- Hsize.
  replace (val makespan_var) with (val makespan_var - 0) by lia.
  apply (no_overlap_load val (length ivs)); [done|done|done|].
  intros a (it & -> & Hit)%list_elem_of_fmap.
  apply list_elem_of_filter in Hit as [_ Hit]. destruct it as [i r].
  apply elem_of_iterrows in Hit. cbn [interval_of iv_start iv_end iv_size fst snd].
  destruct (sat_task _ _ _ _ _ Hsat i r Hit) as (Hs & He & Hd & Hpos).
  repeat split; try lia.
  apply Hub. unfold jobs_of. rewrite <- JobID_filled.
  apply all_ends_values; [done|].
  apply list_elem_of_fmap. exists (i, r). split; [done|].
  by apply elem_of_iterrows.
Qed.

Lemma makespan_covers_machine_witness :
  sum (Duration <$> filter (λ r, MachineID r = 1) (filled scenario_A))
  ≤ schedule_A makespan_var.
Proof.
  apply (makespan_covers_machine scenario_A
           (built_model [1; 2] [1; 2] (filled scenario_A) 11)
           (filled scenario_A) [1; 2] schedule_A 1);
    try (vm_compute; reflexivity).
  - refine (bool_decide_unpack _ _). vm_compute. exact I.
  - refine (bool_decide_unpack _ _). vm_compute. exact I.
Defined.

(** ** Colours of the Gantt chart *)

Lemma job_label_inj (a b : Z) : job_label a = job_label b → a = b.
Proof.
  unfold job_label. cbn [String.append]. intros [= H].
  change (pretty a = pretty b) in H. by apply (inj pretty) in H.
Qed.

Lemma snd_imap_pair {A} (l : list A) : (imap pair l).*2 = l.
Proof.
  assert (Hgen : ∀ (g : nat → A → nat * A) (l : list A),
    (∀ i x, (g i x).2 = x) → (imap g l).*2 = l).
  { intros g l'. revert g. induction l' as [|x l' IH]; intros g Hg; [done|].
    rewrite imap_cons, fmap_cons, Hg. f_equal. apply IH. intros i y. apply Hg. }
  by apply Hgen.
Qed.

Lemma foldl_colors_other (its : list (nat * Z)) (d : gmap string string)
    (k : string) :
  (∀ ij, ij ∈ its → job_label ij.2 ≠ k) →
  foldl (λ d ij, <[job_label ij.2 := color_of ij]> d) d its !! k = d !! k.
Proof.
  revert d. induction its as [|ij its IH]; intros d Hk; [done|].
  simpl. rewrite IH by (intros ij' Hij'; apply Hk; by right).
  apply lookup_insert_ne. apply Hk. left.
Qed.

Lemma foldl_colors_lookup (its : list (nat * Z)) (d : gmap string string)
    (ij : nat * Z) :
  NoDup (its.*2) → ij ∈ its →
  foldl (λ d ij, <[job_label ij.2 := color_of ij]> d) d its !! job_label ij.2
  = Some (color_of ij).
Proof.
  revert d. induction its as [|a its IH]; intros d Hnd Hin;
    [by apply elem_of_nil in Hin|].
  rewrite fmap_cons in Hnd. apply NoDup_cons in Hnd as [Ha Hnd].
  simpl. apply elem_of_cons in Hin as [->|Hin].
  - rewrite foldl_colors_other; [apply lookup_insert_eq|].
    intros ij' Hij' Heq. apply job_label_inj in Heq.
    apply Ha. rewrite <- Heq. apply list_elem_of_fmap. eauto.
  - by apply IH.
Qed.

Lemma foldl_colors_is_Some (its : list (nat * Z)) (d : gmap string string)
    (k : string) (c : string) :
  foldl (λ d ij, <[job_label ij.2 := color_of ij]> d) d its !! k = Some c →
  (∃ ij, ij ∈ its ∧ job_label ij.2 = k) ∨ d !! k = Some c.
Proof.
  revert d. induction its as [|a its IH]; intros d H; [by right|].
  simpl in H. apply IH in H as [(ij & Hin & Hk)|H].
  - left. exists ij. split; [by right|done].
  - destruct (decide (job_label a.2 = k)) as [Hk|Hk].
    + left. exists a. split; [left|done].
    + rewrite lookup_insert_ne in H by done. by right.
Qed.

(** X16. For the Gantt chart of a non-empty schedule, every task entry's
    resource label is a key of
    the colour dictionary; the job at rank [i] of the sorted job ids gets
    the palette colour [i mod 12] (the index is always in range); so with
    at most 12 jobs, different jobs get different colours. *)
Theorem gantt_colors (schedule_df : list ScheduledTask) :
  schedule_df ≠ [] →
  (∀ x, x ∈ gantt_tasks schedule_df →
     is_Some (job_colors schedule_df !! Resource x)) ∧
  (∀ i job, unique_jobs schedule_df !! i = Some job →
     job_colors schedule_df !! job_label job = color_palette !! (i `mod` 12)%nat ∧
     is_Some (color_palette !! (i `mod` 12)%nat)) ∧
  ((length (unique_jobs schedule_df) ≤ 12)%nat →
   ∀ j1 j2 c, j1 ≠ j2 →
     job_colors schedule_df !! job_label j1 = Some c →
     job_colors schedule_df !! job_label j2 ≠ Some c).
Proof.
  intros _.
  assert (Hnd : NoDup ((imap pair (unique_jobs schedule_df)).*2)).
  { rewrite snd_imap_pair. apply NoDup_sorted_unique. }
  assert (Hrank : ∀ i job, unique_jobs schedule_df !! i = Some job →
    job_colors schedule_df !! job_label job = color_palette !! (i `mod` 12)%nat ∧
    is_Some (color_palette !! (i `mod` 12)%nat)).
  { intros i job Hi.
    assert (Hlt : (i `mod` 12 < length color_palette)%nat).
    { change (length color_palette) with 12%nat. apply Nat.mod_upper_bound. lia. }
    split; [|by apply lookup_lt_is_Some].
    unfold job_colors. fold color_of.
    rewrite (foldl_colors_lookup _ ∅ (i, job) Hnd).
    - unfold color_of. cbn [fst]. change (length color_palette) with 12%nat.
      symmetry. apply list_lookup_lookup_total_lt. exact Hlt.
    - apply elem_of_lookup_imap. eauto. }
  split; [|split; [exact Hrank|]].
  - intros x (row & -> & Hrow)%list_elem_of_fmap. cbn [Resource].
    assert (Hjob : s_JobID row ∈ unique_jobs schedule_df).
    { apply elem_of_sorted_unique, list_elem_of_fmap. eauto. }
    apply list_elem_of_lookup in Hjob as [i Hi].
    destruct (Hrank i _ Hi) as [-> Hsome]. exact Hsome.
  - intros Hlen j1 j2 c Hne H1 H2.
    assert (Hidx : ∀ j, job_colors schedule_df !! job_label j = Some c →
      ∃ i, (i < 12)%nat ∧ unique_jobs schedule_df !! i = Some j ∧
           color_palette !! i = Some c).
    { intros j Hj. pose proof Hj as Hj'.
      unfold job_colors in Hj'. fold color_of in Hj'.
      apply foldl_colors_is_Some in Hj' as [([i j'] & Hin & Hk)|Hj'];
        [|by rewrite lookup_empty in Hj'].
      apply job_label_inj in Hk. simpl in Hk. subst j'.
      apply elem_of_lookup_imap in Hin as (i' & j' & [= <- <-] & Hi).
      pose proof (lookup_lt_Some _ _ _ Hi) as Hlt.
      exists i. split; [lia|]. split; [done|].
      destruct (Hrank i j Hi) as [Heq _]. rewrite Hj in Heq.
      rewrite Nat.mod_small in Heq by lia. done. }
    destruct (Hidx j1 H1) as (i1 & _ & Hi1 & Hc1).
    destruct (Hidx j2 H2) as (i2 & _ & Hi2 & Hc2).
    assert (Hpal : NoDup color_palette)
      by (refine (bool_decide_unpack _ _); vm_compute; exact I).
    assert (i1 = i2) as -> by (eapply NoDup_lookup; eauto).
    congruence.
Qed.

Lemma gantt_colors_witness :
  (∀ x, x ∈ gantt_tasks [mkScheduled 1 1 1 0 3 3 11; mkScheduled 2 1 2 0 2 2 11] →
     is_Some (job_colors [mkScheduled 1 1 1 0 3 3 11; mkScheduled 2 1 2 0 2 2 11]
                !! Resource x)) ∧
  (∀ i job,
     unique_jobs [mkScheduled 1 1 1 0 3 3 11; mkScheduled 2 1 2 0 2 2 11] !! i
       = Some job →
     job_colors [mkScheduled 1 1 1 0 3 3 11; mkScheduled 2 1 2 0 2 2 11]
       !! job_label job = color_palette !! (i `mod` 12)%nat ∧
     is_Some (color_palette !! (i `mod` 12)%nat)) ∧
  ((length (unique_jobs [mkScheduled 1 1 1 0 3 3 11; mkScheduled 2 1 2 0 2 2 11])
      ≤ 12)%nat →
   ∀ j1 j2 c, j1 ≠ j2 →
     job_colors [mkScheduled 1 1 1 0 3 3 11; mkScheduled 2 1 2 0 2 2 11]
       !! job_label j1 = Some c →
     job_colors [mkScheduled 1 1 1 0 3 3 11; mkScheduled 2 1 2 0 2 2 11]
       !! job_label j2 ≠ Some c).
Proof.
  apply (gantt_colors [mkScheduled 1 1 1 0 3 3 11; mkScheduled 2 1 2 0 2 2 11]).
  discriminate.
Defined.

(** ** Every well-formed instance has a schedule *)

Lemma maximum_in (l : list Z) :
  l ≠ [] → maximum l ∈ l ∧ ∀ y, y ∈ l → y ≤ maximum l.
Proof.
  destruct l as [|x l]; [done|]. intros _. simpl.
  destruct (foldl_max_spec l x) as (Hm & Hle & Hall). split.
  - destruct Hm as [->|Hm]; [left|by right].
  - intros y [->|Hy]%elem_of_cons; [done|by apply Hall].
Qed.

Lemma max_equality_intro (val : valuation) (t : LinearExpr)
    (es : list LinearExpr) :
  eval val t ∈ (eval val <$> es) →
  (∀ y, y ∈ (eval val <$> es) → y ≤ eval val t) →
  max_equality val t es = true.
Proof.
  intros (e & Heq & He)%list_elem_of_fmap Hub.
  unfold max_equality. apply andb_true_iff. split.
  - apply existsb_exists. exists e. split; [by apply list_elem_of_In|].
    by apply bool_decide_eq_true.
  - apply forallb_elem_of. intros e' He'. apply bool_decide_eq_true.
    apply Hub, list_elem_of_fmap. eauto.
Qed.

Lemma no_overlap_intro (val : valuation) (ivs : list IntervalVar) :
  (∀ i j a b, ivs !! i = Some a → ivs !! j = Some b → i ≠ j →
     disjoint val a b = true) →
  no_overlap val ivs = true.
Proof.
  induction ivs as [|a ivs IH]; intros H; [done|].
  simpl. apply andb_true_iff. split.
  - apply forallb_elem_of. intros b Hb.
    apply list_elem_of_lookup in Hb as [j Hj].
    by apply (H 0%nat (S j) a b).
  - apply IH. intros i j b c Hi Hj Hne.
    apply (H (S i) (S j) b c); [done|done|lia].
Qed.

Lemma sum_filter_mono {A} (f : A → Z) (P Q : A → Prop)
    `{∀ x, Decision (P x)} `{∀ x, Decision (Q x)} (l : list A) :
  (∀ x, x ∈ l → 0 ≤ f x) → (∀ x, P x → Q x) →
  sum (f <$> filter P l) ≤ sum (f <$> filter Q l).
Proof.
  intros Hpos HPQ. induction l as [|x l IH]; [done|].
  assert (0 ≤ f x) by (apply Hpos; left).
  assert (sum (f <$> filter P l) ≤ sum (f <$> filter Q l))
    by (apply IH; intros y Hy; apply Hpos; by right).
  rewrite !filter_cons.
  destruct (decide (P x)) as [Hp|Hp]; destruct (decide (Q x)) as [Hq|Hq];
    rewrite ?fmap_cons, ?sum_cons; try lia.
  exfalso. by apply Hq, HPQ.
Qed.

(** A selection that grows by at least the element [a] grows in sum by at
    least [f a]. *)
Lemma sum_filter_plus_le {A} (f : A → Z) (P Q : A → Prop)
    `{∀ x, Decision (P x)} `{∀ x, Decision (Q x)} (l : list A) (a : A) :
  (∀ x, x ∈ l → 0 ≤ f x) → (∀ x, P x → Q x) →
  a ∈ l → ¬ P a → Q a →
  sum (f <$> filter P l) + f a ≤ sum (f <$> filter Q l).
Proof.
  intros Hpos HPQ Ha HnP HQ. induction l as [|x l IH];
    [by apply elem_of_nil in Ha|].
  assert (0 ≤ f x) by (apply Hpos; left).
  assert (Hpos' : ∀ y, y ∈ l → 0 ≤ f y) by (intros y Hy; apply Hpos; by right).
  apply elem_of_cons in Ha as [->|Ha].
  - pose proof (sum_filter_mono f P Q l Hpos' HPQ).
    rewrite filter_cons_False, filter_cons_True by done.
    rewrite fmap_cons, sum_cons. lia.
  - specialize (IH Hpos' Ha).
    rewrite !filter_cons.
    destruct (decide (P x)) as [Hp|Hp]; destruct (decide (Q x)) as [Hq|Hq];
      rewrite ?fmap_cons, ?sum_cons; try lia.
    exfalso. by apply Hq, HPQ.
Qed.

Lemma key_lt_irrefl (k : Z * Z) : ¬ key_lt k k.
Proof. unfold key_lt. lia. Qed.

Lemma key_lt_trans (a b c : Z * Z) : key_lt a b → key_lt b c → key_lt a c.
Proof. unfold key_lt. lia. Qed.

Lemma key_lt_total (a b : Z * Z) : a ≠ b → key_lt a b ∨ key_lt b a.
Proof.
  destruct a as [a1 a2], b as [b1 b2]. unfold key_lt. simpl. intros Hne.
  destruct (decide (a1 = b1)) as [->|?]; [|lia].
  assert (a2 ≠ b2) by congruence. lia.
Qed.

Lemma StronglySorted_lookup_le (l : list Z) (i j : nat) (x y : Z) :
  StronglySorted Z.le l → l !! i = Some x → l !! j = Some y → (i < j)%nat →
  x ≤ y.
Proof.
  intros Hs. revert i j. induction Hs as [|a l Hs IH Hall]; intros i j Hi Hj Hij;
    [done|].
  destruct j as [|j]; [lia|]. simpl in Hj. destruct i as [|i].
  - simpl in Hi. injection Hi as <-.
    rewrite Forall_forall in Hall. apply Hall.
    apply list_elem_of_lookup. eauto.
  - simpl in Hi. apply (IH i j); [done|done|lia].
Qed.

Lemma NoDup_iterrows {D} (df : DataFrame D) : NoDup (iterrows df).
Proof.
  apply NoDup_alt. intros i j [i' r] Hi Hj. unfold iterrows in Hi, Hj.
  rewrite list_lookup_imap in Hi, Hj.
  destruct (df !! i) as [ri|]; [|done]. destruct (df !! j) as [rj|]; [|done].
  simpl in Hi, Hj. congruence.
Qed.

Section serial_schedule.
Variable df : DataFrame Z.
Hypothesis Hpos : ∀ r, r ∈ df → 0 ≤ Duration r.
Hypothesis Hnd : NoDup (key <$> df).

Lemma serial_start_nonneg (r : Row Z) : 0 ≤ serial_start df r.
Proof.
  apply sum_nonneg. intros x (r' & -> & Hr')%list_elem_of_fmap.
  apply list_elem_of_filter in Hr' as [_ Hr']. by apply Hpos.
Qed.

Lemma serial_end_le (r : Row Z) :
  r ∈ df → serial_end df r ≤ sum (Duration <$> df).
Proof.
  intros Hr. unfold serial_end, serial_start.
  rewrite <- (filter_all (λ _, True) df) at 2 by done.
  apply sum_filter_plus_le; [done|done|done|apply key_lt_irrefl|done].
Qed.

Lemma serial_before (r1 r2 : Row Z) :
  r1 ∈ df → key_lt (key r1) (key r2) → serial_end df r1 ≤ serial_start df r2.
Proof.
  intros Hr Hlt. unfold serial_end, serial_start.
  apply sum_filter_plus_le; [done| |done|apply key_lt_irrefl|done].
  intros r Hr1. by apply (key_lt_trans _ (key r1)).
Qed.

Lemma serial_row_vars (i : nat) (r : Row Z) :
  df !! i = Some r →
  serial df (start_var i) = serial_start df r ∧
  serial df (end_var i) = serial_end df r.
Proof. intros Hi. simpl. by rewrite Hi. Qed.

Lemma serial_disjoint (i j : nat) (ri rj : Row Z) :
  df !! i = Some ri → df !! j = Some rj → i ≠ j →
  disjoint (serial df) (interval_of (i, ri)) (interval_of (j, rj)) = true.
Proof.
  intros Hi Hj Hne.
  assert (Hk : key ri ≠ key rj).
  { intros Heq. apply Hne. eapply NoDup_lookup; [exact Hnd| |].
    - rewrite list_lookup_fmap, Hi. simpl. by rewrite Heq.
    - by rewrite list_lookup_fmap, Hj. }
  unfold disjoint. cbn [interval_of iv_start iv_end fst snd].
  destruct (serial_row_vars i ri Hi) as [-> ->].
  destruct (serial_row_vars j rj Hj) as [-> ->].
  assert (Hri : ri ∈ df) by (apply list_elem_of_lookup; eauto).
  assert (Hrj : rj ∈ df) by (apply list_elem_of_lookup; eauto).
  apply orb_true_iff.
  destruct (key_lt_total _ _ Hk) as [Hlt|Hlt].
  - left. apply bool_decide_eq_true. by apply serial_before.
  - right. apply bool_decide_eq_true. by apply serial_before.
Qed.

Lemma serial_no_overlap (machine : Z) :
  no_overlap (serial df)
    (interval_of <$> filter (λ it, MachineID it.2 = machine) (iterrows df)) = true.
Proof.
  apply no_overlap_intro. intros p q a b Hp Hq Hpq.
  rewrite list_lookup_fmap in Hp, Hq.
  destruct (filter _ _ !! p) as [[i ri]|] eqn:Hfp; [|done].
  destruct (filter _ _ !! q) as [[j rj]|] eqn:Hfq; [|done].
  simpl in Hp, Hq. injection Hp as <-. injection Hq as <-.
  assert (Hndf : NoDup (filter (λ it : nat * Row Z, MachineID it.2 = machine)
                          (iterrows df)))
    by apply NoDup_filter, NoDup_iterrows.
  assert (Hit1 : (i, ri) ∈ iterrows df).
  { apply list_elem_of_lookup_2 in Hfp. by apply list_elem_of_filter in Hfp as [_ ?]. }
  assert (Hit2 : (j, rj) ∈ iterrows df).
  { apply list_elem_of_lookup_2 in Hfq. by apply list_elem_of_filter in Hfq as [_ ?]. }
  apply elem_of_iterrows in Hit1, Hit2.
  apply serial_disjoint; [done|done|].
  intros ->. apply Hpq. eapply NoDup_lookup; [exact Hndf|exact Hfp|].
  rewrite Hfq. congruence.
Qed.

Lemma NoDup_task_ids (job : Z) : NoDup (TaskID <$> rows_of_job df job).
Proof.
  apply (NoDup_fmap_1 (pair job)).
  assert (Heq : pair job <$> (TaskID <$> rows_of_job df job) =
                key <$> rows_of_job df job).
  { rewrite <- list_fmap_compose. apply list_fmap_ext. intros i r Hr.
    apply list_elem_of_lookup_2 in Hr.
    apply list_elem_of_filter in Hr as [Hj _]. simpl. unfold key. by rewrite Hj. }
  rewrite Heq. apply (sublist_NoDup _ (key <$> df)); [exact Hnd|].
  apply fmap_sublist. unfold rows_of_job. apply sublist_filter.
Qed.

(** The row behind a task id of a job. *)
Lemma task_id_row (job t : Z) :
  t ∈ sorted_task_ids df job →
  ∃ i r, df !! i = Some r ∧ key r = (job, t) ∧
    all_tasks_of df !!! (job, t) = task_vars_of (i, r).
Proof.
  intros Ht. unfold sorted_task_ids in Ht.
  rewrite (merge_sort_Permutation Z.le) in Ht.
  apply list_elem_of_fmap in Ht as (r & -> & Hr).
  apply list_elem_of_filter in Hr as [Hj Hr].
  apply list_elem_of_lookup in Hr as [i Hi].
  exists i, r. assert (Hk : key r = (job, TaskID r)) by (unfold key; by rewrite Hj).
  split; [done|]. split; [done|].
  rewrite <- Hk. by apply all_tasks_lookup_NoDup.
Qed.

Lemma serial_precedence (job : Z) (c : Constraint) :
  c ∈ precedences (all_tasks_of df) df job → holds (serial df) c = true.
Proof.
  unfold precedences. intros (k & -> & Hk)%list_elem_of_fmap.
  apply elem_of_seq in Hk as [_ Hk].
  destruct (lookup_lt_is_Some_2 (sorted_task_ids df job) k) as [t1 H1]; [lia|].
  destruct (lookup_lt_is_Some_2 (sorted_task_ids df job) (S k)) as [t2 H2]; [lia|].
  rewrite (list_lookup_total_correct _ _ _ H1), (list_lookup_total_correct _ _ _ H2).
  destruct (task_id_row job t1) as (i1 & r1 & Hi1 & Hk1 & ->);
    [by apply list_elem_of_lookup_2 in H1|].
  destruct (task_id_row job t2) as (i2 & r2 & Hi2 & Hk2 & ->);
    [by apply list_elem_of_lookup_2 in H2|].
  cbn [holds eval task_vars_of t_end t_start fst snd].
  destruct (serial_row_vars i1 r1 Hi1) as [_ ->].
  destruct (serial_row_vars i2 r2 Hi2) as [-> _].
  apply bool_decide_eq_true. apply serial_before.
  - apply list_elem_of_lookup. eauto.
  - rewrite Hk1, Hk2. unfold key_lt. right. split; [done|]. simpl.
    destruct (sorted_task_ids_spec df job) as [Hsorted Hperm].
    assert (Hss : StronglySorted Z.le (sorted_task_ids df job)).
    { apply Sorted_StronglySorted; [|done]. intros x y z. lia. }
    assert (t1 ≤ t2) by (eapply (StronglySorted_lookup_le _ k (S k)); eauto).
    assert (t1 ≠ t2).
    { intros ->. assert (k = S k); [|lia].
      eapply NoDup_lookup; [|exact H1|exact H2].
      rewrite Hperm. apply NoDup_task_ids. }
    lia.
Qed.

Lemma serial_task_ends (y : Z) :
  y ∈ task_ends (serial df) df ↔ y ∈ serial_end df <$> df.
Proof.
  unfold task_ends. split.
  - intros ([i r] & -> & Hit)%list_elem_of_fmap. apply elem_of_iterrows in Hit.
    cbn [fst]. destruct (serial_row_vars i r Hit) as [_ ->].
    apply list_elem_of_fmap. exists r. split; [done|].
    apply list_elem_of_lookup. eauto.
  - intros (r & -> & Hr)%list_elem_of_fmap.
    apply list_elem_of_lookup in Hr as [i Hi].
    apply list_elem_of_fmap. exists (i, r). split.
    + cbn [fst]. by destruct (serial_row_vars i r Hi) as [_ ->].
    + by apply elem_of_iterrows.
Qed.

Lemma serial_job_task_ends (job y : Z) :
  y ∈ job_task_ends (serial df) df job ↔ y ∈ serial_end df <$> rows_of_job df job.
Proof.
  unfold job_task_ends, rows_of_job. split.
  - intros ([i r] & -> & Hit)%list_elem_of_fmap.
    apply list_elem_of_filter in Hit as [Hj Hit]. apply elem_of_iterrows in Hit.
    cbn [fst]. destruct (serial_row_vars i r Hit) as [_ ->].
    apply list_elem_of_fmap. exists r. split; [done|].
    apply list_elem_of_filter. split; [done|].
    apply list_elem_of_lookup. eauto.
  - intros (r & -> & Hr)%list_elem_of_fmap.
    apply list_elem_of_filter in Hr as [Hj Hr].
    apply list_elem_of_lookup in Hr as [i Hi].
    apply list_elem_of_fmap. exists (i, r). split.
    + cbn [fst]. by destruct (serial_row_vars i r Hi) as [_ ->].
    + apply list_elem_of_filter. split; [done|]. by apply elem_of_iterrows.
Qed.

Lemma serial_makespan :
  df ≠ [] →
  max_equality (serial df) (EVar makespan_var)
    (sorted_unique (JobID <$> df) ≫= job_ends (all_tasks_of df) df) = true.
Proof.
  intros Hne.
  assert (Hne' : serial_end df <$> df ≠ []) by (by destruct df).
  destruct (maximum_in _ Hne') as [Hin Hub].
  apply max_equality_intro.
  - apply all_ends_values; [done|]. by apply serial_task_ends.
  - intros y Hy. apply all_ends_values in Hy; [|done].
    apply serial_task_ends in Hy. by apply Hub.
Qed.

Lemma rows_of_job_nonempty (job : Z) :
  job ∈ sorted_unique (JobID <$> df) → serial_end df <$> rows_of_job df job ≠ [].
Proof.
  intros (r & Hr & Hj)%job_has_row.
  assert (Hin : r ∈ rows_of_job df job) by (by apply list_elem_of_filter).
  destruct (rows_of_job df job); [by apply elem_of_nil in Hin|done].
Qed.

Lemma serial_job_end (job : Z) :
  job ∈ sorted_unique (JobID <$> df) →
  max_equality (serial df) (EVar (job_end_var job))
    (job_ends (all_tasks_of df) df job) = true.
Proof.
  intros Hjob.
  destruct (maximum_in _ (rows_of_job_nonempty job Hjob)) as [Hin Hub].
  apply max_equality_intro.
  - apply job_ends_values; [done|]. by apply serial_job_task_ends.
  - intros y Hy. apply job_ends_values in Hy; [|done].
    apply serial_job_task_ends in Hy. by apply Hub.
Qed.

Lemma serial_tardiness (job : Z) :
  max_equality (serial df) (EVar (tardiness_var job))
    [ESub (EVar (job_end_var job)) (EConst (default 0 (job_deadline df job)));
     EConst 0] = true.
Proof.
  apply max_equality_intro; cbn [eval serial fmap list_fmap].
  - destruct (Z.max_spec 0 (maximum (serial_end df <$> rows_of_job df job)
                            - default 0 (job_deadline df job))) as [[_ ->]|[_ ->]].
    + left.
    + right. left.
  - intros y [->|[->|Hy]%elem_of_cons]%elem_of_cons; [lia|lia|].
    by apply elem_of_nil in Hy.
Qed.
End serial_schedule.

(** X17. An instance with at least one row, non-negative durations,
    non-negative deadlines and distinct task keys always has a feasible
    assignment: running the tasks one after another in key order satisfies
    every constraint of the encoded model. *)
Theorem model_feasible (csv : DataFrame (option Z)) (m : CpModel)
    (df : DataFrame Z) :
  model (encoded csv) = Some m → jobs_data (encoded csv) = Some df →
  csv ≠ [] →
  Forall (λ r, 0 ≤ Duration r) df → Forall (λ r, 0 ≤ Deadline r) df →
  NoDup (key <$> df) →
  satisfies (serial df) m = true.
Proof.
  intros Hm Hdf Hne Hpos Hdl Hnd.
  rewrite encoded_eq in Hm, Hdf. simpl in Hm, Hdf.
  injection Hm as <-. injection Hdf as <-.
  rewrite Forall_forall in Hpos, Hdl.
  set (df := filled csv) in *.
  assert (Hdfne : df ≠ []) by (unfold df, filled; by destruct csv).
  assert (Hh : horizon_of csv = sum (Duration <$> df))
    by (unfold df; by rewrite Duration_filled).
  assert (Hjs : jobs_of csv = sorted_unique (JobID <$> df))
    by (unfold df, jobs_of; by rewrite JobID_filled).
  rewrite Hh, Hjs.
  assert (Hhpos : 0 ≤ sum (Duration <$> df)).
  { apply sum_nonneg. intros x (r & -> & Hr)%list_elem_of_fmap. by apply Hpos. }
  (* the end of a job lies within the horizon *)
  assert (Hjob_end : ∀ job, job ∈ sorted_unique (JobID <$> df) →
    0 ≤ maximum (serial_end df <$> rows_of_job df job) ≤ sum (Duration <$> df)).
  { intros job Hjob.
    destruct (maximum_in _ (rows_of_job_nonempty df job Hjob)) as [Hin _].
    apply list_elem_of_fmap in Hin as (r & -> & Hr).
    apply list_elem_of_filter in Hr as [_ Hr].
    pose proof (serial_start_nonneg df Hpos r).
    pose proof (serial_end_le df Hpos r Hr).
    specialize (Hpos r Hr). unfold serial_end in *. lia. }
  unfold satisfies. apply andb_true_iff. split.
  - apply forallb_elem_of. intros d Hd. unfold in_domain.
    apply andb_true_iff. rewrite !bool_decide_eq_true.
    cbn [variables built_model] in Hd.
    apply elem_of_app in Hd as [Hd|Hd]; [|apply elem_of_cons in Hd as [->|Hd]].
    + apply list_elem_of_bind in Hd as ([i r] & Hd & Hit).
      apply elem_of_iterrows in Hit.
      assert (Hr : r ∈ df) by (apply list_elem_of_lookup; eauto).
      destruct (serial_row_vars df i r Hit) as [Hs He].
      pose proof (serial_start_nonneg df Hpos r).
      pose proof (serial_end_le df Hpos r Hr).
      specialize (Hpos r Hr). unfold serial_end in *.
      unfold task_variables in Hd. cbn [fst] in Hd.
      apply elem_of_cons in Hd as [->|Hd];
        [|apply elem_of_cons in Hd as [->|Hd]; [|by apply elem_of_nil in Hd]];
        cbn [fst snd]; rewrite ?Hs, ?He; lia.
    + cbn [fst snd serial].
      assert (Hne' : serial_end df <$> df ≠ []) by (by destruct df).
      destruct (maximum_in _ Hne') as [Hin _].
      apply list_elem_of_fmap in Hin as (r & -> & Hr).
      pose proof (serial_start_nonneg df Hpos r).
      pose proof (serial_end_le df Hpos r Hr).
      specialize (Hpos r Hr). unfold serial_end in *. lia.
    + apply list_elem_of_bind in Hd as (job & Hd & Hjob).
      specialize (Hjob_end job Hjob).
      assert (Hdeadline : 0 ≤ default 0 (job_deadline df job)).
      { unfold job_deadline, iloc0.
        destruct (rows_of_job df job) as [|r l] eqn:Hrows; [done|].
        simpl. apply Hdl.
        assert (Hr : r ∈ rows_of_job df job) by (rewrite Hrows; left).
        by apply list_elem_of_filter in Hr as [_ ?]. }
      unfold tardiness_variables in Hd.
      apply elem_of_cons in Hd as [->|Hd];
        [|apply elem_of_cons in Hd as [->|Hd]; [|by apply elem_of_nil in Hd]];
        cbn [fst snd serial]; lia.
  - apply forallb_elem_of. intros c Hc.
    cbn [constraints built_model] in Hc.
    apply elem_of_app in Hc as [Hc|Hc];
      [|apply elem_of_app in Hc as [Hc|Hc];
        [|apply elem_of_app in Hc as [Hc|Hc];
          [|apply elem_of_cons in Hc as [->|Hc]]]].
    + apply list_elem_of_fmap in Hc as ([i r] & -> & Hit).
      apply elem_of_iterrows in Hit.
      destruct (serial_row_vars df i r Hit) as [Hs He].
      cbn [holds interval_of iv_start iv_end iv_size fst snd].
      rewrite Hs, He. apply andb_true_iff. rewrite !bool_decide_eq_true.
      split; [done|]. apply Hpos, list_elem_of_lookup. eauto.
    + apply list_elem_of_fmap in Hc as (machine & -> & Hmach).
      cbn [holds]. rewrite machine_to_intervals_lookup by done.
      by apply serial_no_overlap.
    + apply list_elem_of_bind in Hc as (job & Hc & _).
      by apply (serial_precedence df Hpos Hnd job).
    + cbn [holds]. by apply serial_makespan.
    + apply list_elem_of_bind in Hc as (job & Hc & Hjob).
      unfold tardiness_constraints in Hc.
      apply elem_of_cons in Hc as [->|Hc];
        [|apply elem_of_cons in Hc as [->|Hc]; [|by apply elem_of_nil in Hc]];
        cbn [holds].
      * by apply serial_job_end.
      * apply serial_tardiness.
Qed.

Lemma model_feasible_witness :
  satisfies (serial (filled scenario_A))
    (built_model [1; 2] [1; 2] (filled scenario_A) 11) = true.
Proof.
  apply (model_feasible scenario_A
           (built_model [1; 2] [1; 2] (filled scenario_A) 11)
           (filled scenario_A)).
  - vm_compute; reflexivity.
  - vm_compute; reflexivity.
  - discriminate.
  - refine (bool_decide_unpack _ _). vm_compute. exact I.
  - refine (bool_decide_unpack _ _). vm_compute. exact I.
  - refine (bool_decide_unpack _ _). vm_compute. exact I.
Defined.
